(** * A shallow embedding of the APOB parser and the interactive viewer

    Sources: [apob/src/lib.rs] (record layouts, group and bitfield
    accessors), [apob-cli/src/main.rs] (the container walk in [main] and
    [decode_item]) and [apob-cli/src/app.rs] (the browser state of [App]
    and the event loop of [App::run]).

    Rust panics ([unwrap] on a failed zerocopy cast, out-of-range slice
    indexing, usize overflow in a debug build) are modelled as an error
    value [Err p] that names the panic site; [Ok v] is normal return. *)

From Stdlib Require Import ZArith NArith Lia Sorting.Sorted Ascii String.
From stdpp Require Import base gmap list.

Open Scope Z_scope.

(* ------------------------------------------------------------------ *)
(** ** Panics and the result monad *)

Inductive Panic :=
  | HeaderPrefix      (* ApobHeader::ref_from_prefix(&data).unwrap() *)
  | BadSignature      (* assert_eq!(header.sig, APOB_SIG) *)
  | BadVersion        (* assert_eq!(header.version, APOB_VERSION) *)
  | SliceOutOfRange   (* data[a..b] with a > b or b > len *)
  | EntryPrefix       (* ApobEntry::ref_from_prefix(&data[pos..]).unwrap() *)
  | CastFailed        (* any other zerocopy cast unwrapped in a decoder *)
  | UsizeOverflow     (* arithmetic overflow checked in a debug build *)
  | IndexOutOfBounds  (* self.items[i] with i >= len *)
  | DivideByZero      (* integer division by zero *)
  | ExplicitPanic     (* panic!() *)
  | UnwrapNone        (* Option::unwrap on None in the drawing code *)
  | OutOfFuel.        (* never reached: the walk consumes >= 48 bytes a step *)

Inductive result (A : Type) :=
  | Ok (a : A)
  | Err (p : Panic).
Arguments Ok {A} a.
Arguments Err {A} p.

Definition bind {A B} (m : result A) (k : A -> result B) : result B :=
  match m with Ok a => k a | Err p => Err p end.

Notation "x <- m ;; k" := (bind m (fun x => k))
  (at level 100, m at level 99, right associativity).

(** [Option::unwrap], with the panic site recorded. *)
Definition unwrap {A} (p : Panic) (o : option A) : result A :=
  match o with Some a => Ok a | None => Err p end.

(* ------------------------------------------------------------------ *)
(** ** Bytes *)

(** A byte buffer is a list of integers in [0, 256). *)
Definition is_byte (b : Z) : Prop := 0 <= b < 256.

(** Little-endian decoding of a byte string. *)
Fixpoint le_decode (bs : list Z) : Z :=
  match bs with
  | [] => 0
  | b :: bs' => b + 256 * le_decode bs'
  end.

(** Little-endian encoding of a value on [n] bytes (the memory image of
    an integer field of a [#[repr(C)]] struct on a little-endian host). *)
Fixpoint le_encode (n : nat) (v : Z) : list Z :=
  match n with
  | O => []
  | S n' => v mod 256 :: le_encode n' (v / 256)
  end.

(** A [u32] field read at byte offset [off] of a buffer. *)
Definition read_u32 (bs : list Z) (off : nat) : Z :=
  le_decode (take 4 (drop off bs)).

(** Rust's [&s[a..b]]: panics unless [a <= b <= s.len()]. *)
Definition slice (s : list Z) (a b : nat) : result (list Z) :=
  if (a <=? b)%nat && (b <=? length s)%nat
  then Ok (take (b - a) (drop a s))
  else Err SliceOutOfRange.

(* ------------------------------------------------------------------ *)
(** ** Records of [apob/src/lib.rs] *)

Definition APOB_SIG : list Z := [65; 80; 79; 66].   (* b"APOB" *)
Definition APOB_VERSION : Z := 24.                  (* 0x18 *)
Definition APOB_CANCELLED : Z := 4294901760.        (* 0xFFFF_0000 *)

Record ApobHeader := {
  sig : list Z;
  version : Z;
  hsize : Z;
  hoffset : Z;
}.

(** [size_of::<ApobHeader>()] *)
Definition header_size : nat := 16.

Record ApobEntry := {
  group : Z;
  ty : Z;
  inst : Z;
  size : Z;
  hmac : list Z;
}.

(** [size_of::<ApobEntry>()] = 3*4 + 4 + 32 *)
Definition entry_header_size : nat := 48.

(** The fields of a header read in place from the start of a buffer. *)
Definition header_of_bytes (bs : list Z) : ApobHeader :=
  {| sig := take 4 bs; version := read_u32 bs 4;
     hsize := read_u32 bs 8; hoffset := read_u32 bs 12 |}.

Definition entry_of_bytes (bs : list Z) : ApobEntry :=
  {| group := read_u32 bs 0; ty := read_u32 bs 4; inst := read_u32 bs 8;
     size := read_u32 bs 12; hmac := take 32 (drop 16 bs) |}.

(** The memory image of an [ApobEntry] ([#[repr(C)]], no padding). *)
Definition entry_bytes (e : ApobEntry) : list Z :=
  le_encode 4 (group e) ++ le_encode 4 (ty e) ++ le_encode 4 (inst e)
  ++ le_encode 4 (size e) ++ hmac e.

(** zerocopy's [ref_from_prefix] fails when the buffer is shorter than
    the type or its start is not aligned for it.  Both structs have
    alignment 4; the [Vec<u8>] holding the file starts on an aligned
    address, so [&data[pos..]] is aligned iff [pos] is a multiple of 4. *)
Definition header_ref_from_prefix (data : list Z) : option ApobHeader :=
  if (header_size <=? length data)%nat
  then Some (header_of_bytes data) else None.

Definition entry_ref_from_prefix (data : list Z) (pos : nat)
  : option ApobEntry :=
  if (Nat.modulo pos 4 =? 0)%nat
     && (entry_header_size <=? length (drop pos data))%nat
  then Some (entry_of_bytes (drop pos data)) else None.

(* ------------------------------------------------------------------ *)
(** ** The container walk of [main] (apob-cli/src/main.rs) *)

Inductive Item :=
  | Item_Header (h : ApobHeader)
  | Item_Padding
  | Item_Entry (e : ApobEntry).

Record Entry := {
  offset : nat;
  entry : Item;
  data : list Z;
}.

(** The [while pos < data.len()] loop.  Every iteration that does not
    panic advances [pos] by at least [entry_header_size] bytes, so the
    fuel [S (length data)] given by [parse] is never exhausted. *)
Fixpoint entries_loop (fuel : nat) (bytes : list Z) (pos : nat)
  : result (list Entry) :=
  if (pos <? length bytes)%nat then
    match fuel with
    | O => Err OutOfFuel
    | S fuel' =>
        e <- unwrap EntryPrefix (entry_ref_from_prefix bytes pos) ;;
        sized <- slice (drop pos bytes) 0 (Z.to_nat (size e)) ;;
        edata <- slice sized entry_header_size (length sized) ;;
        rest <- entries_loop fuel' bytes (pos + Z.to_nat (size e)) ;;
        Ok ({| offset := pos; entry := Item_Entry e; data := edata |}
            :: rest)
    end
  else Ok [].

(** The parsing part of [main]: header, padding, then the records. *)
Definition parse (bytes : list Z) : result (ApobHeader * list Entry) :=
  header <- unwrap HeaderPrefix (header_ref_from_prefix bytes) ;;
  _ <- (if decide (sig header = APOB_SIG) then Ok tt else Err BadSignature) ;;
  _ <- (if decide (version header = APOB_VERSION) then Ok tt
        else Err BadVersion) ;;
  hdata <- slice bytes 0 header_size ;;
  pdata <- slice bytes header_size (Z.to_nat (hoffset header)) ;;
  rest <- entries_loop (S (length bytes)) bytes (Z.to_nat (hoffset header)) ;;
  Ok (header,
      {| offset := 0; entry := Item_Header header; data := hdata |}
      :: {| offset := header_size; entry := Item_Padding; data := pdata |}
      :: rest).

(** Bytes an item stands for in the file: a record's 48-byte header is
    not part of its [data], the header and padding items' [data] is
    their whole region. *)
Definition item_bytes (it : Entry) : list Z :=
  match entry it with
  | Item_Entry e => entry_bytes e ++ data it
  | _ => data it
  end.

Definition item_len (it : Entry) : nat := length (item_bytes it).

(** [tile a its b]: the items' ranges [offset, offset + item_len), in
    order, partition [a, b) with no gap and no overlap. *)
Fixpoint tile (a : nat) (its : list Entry) (b : nat) : Prop :=
  match its with
  | [] => a = b
  | it :: its' => offset it = a /\ tile (a + item_len it)%nat its' b
  end.

(** The claim's reading of the round trip, for comparison with
    [item_bytes]: every item's payload, preceded by its header bytes for
    a header or record item (a header's bytes are its [#[repr(C)]]
    memory image). *)
Definition header_bytes (h : ApobHeader) : list Z :=
  sig h ++ le_encode 4 (version h) ++ le_encode 4 (hsize h)
  ++ le_encode 4 (hoffset h).

Definition spec_item_bytes (it : Entry) : list Z :=
  match entry it with
  | Item_Header h => header_bytes h ++ data it
  | Item_Entry e => entry_bytes e ++ data it
  | Item_Padding => data it
  end.

(** [reaches bytes p q]: walking well-formed records from [p] (each with
    a readable header and a size in [48, remaining]) arrives at [q]. *)
Inductive reaches (bytes : list Z) : nat -> nat -> Prop :=
  | reaches_here (p : nat) : reaches bytes p p
  | reaches_next (p q : nat) (e : ApobEntry) :
      (p < length bytes)%nat ->
      entry_ref_from_prefix bytes p = Some e ->
      (entry_header_size <= Z.to_nat (size e) <= length bytes - p)%nat ->
      reaches bytes (p + Z.to_nat (size e)) q ->
      reaches bytes p q.

#[global] Instance is_byte_dec (b : Z) : Decision (is_byte b).
Proof. unfold is_byte. apply _. Defined.

Definition parsed_items (bytes : list Z) : list Entry :=
  match parse bytes with Ok (_, its) => its | Err _ => [] end.

Definition parsed_header (bytes : list Z) : ApobHeader :=
  header_of_bytes bytes.


(* ------------------------------------------------------------------ *)
(** ** Groups and cancellation ([ApobEntry::group], [cancelled]) *)

Inductive ApobGroup :=
  | MEMORY | DF | CCX | NBIO | FCH | PSP | GENERAL | SMBIOS | FABRIC | APCB.

(** strum's [FromRepr] for [ApobGroup] ([MEMORY = 1], then consecutive). *)
Definition ApobGroup_from_repr (v : Z) : option ApobGroup :=
  match v with
  | 1 => Some MEMORY | 2 => Some DF | 3 => Some CCX | 4 => Some NBIO
  | 5 => Some FCH | 6 => Some PSP | 7 => Some GENERAL | 8 => Some SMBIOS
  | 9 => Some FABRIC | 10 => Some APCB
  | _ => None
  end.

(** Bitwise [!x] on a [u32]. *)
Definition u32_not (x : Z) : Z := Z.lxor x (Z.ones 32).

(** [ApobEntry::group]: [self.group & !APOB_CANCELLED], then [from_repr]. *)
Definition group_of (e : ApobEntry) : option ApobGroup :=
  ApobGroup_from_repr (Z.land (group e) (u32_not APOB_CANCELLED)).

(** [ApobEntry::cancelled]. *)
Definition cancelled (e : ApobEntry) : bool :=
  Z.eqb (Z.land (group e) APOB_CANCELLED) APOB_CANCELLED.

Definition with_group (e : ApobEntry) (g : Z) : ApobEntry :=
  {| group := g; ty := ty e; inst := inst e; size := size e; hmac := hmac e |}.

(* ------------------------------------------------------------------ *)
(** ** Bit-packed words ([PmuTfiEntryBitfield], [MilanTrainErrorData0/1]) *)

Definition pmu_sock (w : Z) : Z := Z.land w 1.
Definition pmu_umc (w : Z) : Z := Z.land (Z.shiftr w 1) 7.
Definition pmu_dimension (w : Z) : Z := Z.land (Z.shiftr w 4) 1.
Definition pmu_num_1d (w : Z) : Z := Z.land (Z.shiftr w 5) 7.
Definition pmu_stage (w : Z) : Z := Z.land (Z.shiftr w 15) 65535.

(* ------------------------------------------------------------------ *)
(** ** Specialized payload decoders *)

Definition read_u16 (bs : list Z) (off : nat) : Z :=
  le_decode (take 2 (drop off bs)).
Definition read_u64 (bs : list Z) (off : nat) : Z :=
  le_decode (take 8 (drop off bs)).

Record MilanApobEvent := {
  class : Z; info : Z; data0 : Z; data1 : Z;
}.

Record ApobSysMemMapHole := {
  hole_base : Z; hole_size : Z; hole_ty : Z;
}.

Record PmuTfiEntry := {
  bits : Z; error : Z; tfi_data : list Z;
}.

(** [size_of] of the overlaid structs. *)
Definition event_log_size : nat := 4 + 64 * 16.     (* MilanApobEventLog *)
Definition sys_mem_map_size : nat := 16.            (* ApobSysMemMap *)
Definition hole_size_bytes : nat := 24.             (* ApobSysMemMapHole *)
Definition pmu_tfi_size : nat := 4 + 40 * 24.       (* PmuTfi *)

Definition event_at (bs : list Z) (i : nat) : MilanApobEvent :=
  let o := (4 + 16 * i)%nat in
  {| class := read_u32 bs o; info := read_u32 bs (o + 4);
     data0 := read_u32 bs (o + 8); data1 := read_u32 bs (o + 12) |}.

Definition hole_at (bs : list Z) (i : nat) : ApobSysMemMapHole :=
  let o := (16 + 24 * i)%nat in
  {| hole_base := read_u64 bs o; hole_size := read_u64 bs (o + 8);
     hole_ty := read_u32 bs (o + 16) |}.

Definition tfi_entry_at (bs : list Z) (i : nat) : PmuTfiEntry :=
  let o := (4 + 24 * i)%nat in
  {| bits := read_u32 bs o; error := read_u32 bs (o + 4);
     tfi_data := map (fun k => read_u32 bs (o + 8 + 4 * k)) (seq 0 4) |}.

(** [MilanApobEventLog::ref_from_prefix(data).unwrap()], then
    [log.events[..log.count as usize]]. *)
Definition decode_event_log (bs : list Z) : result (list MilanApobEvent) :=
  if (event_log_size <=? length bs)%nat then
    let count := Z.to_nat (read_u16 bs 0) in
    if (count <=? 64)%nat then Ok (map (event_at bs) (seq 0 count))
    else Err SliceOutOfRange
  else Err CastFailed.

(** [ApobSysMemMap::ref_from_prefix(data).unwrap()], then
    [<[ApobSysMemMapHole]>::ref_from_bytes(holes).unwrap()] (the tail must
    be a whole number of holes), then [holes[..map.hole_count]]. *)
Definition decode_sys_mem_map (bs : list Z)
  : result (Z * list ApobSysMemMapHole) :=
  if (sys_mem_map_size <=? length bs)%nat then
    let tail := (length bs - sys_mem_map_size)%nat in
    if (Nat.modulo tail hole_size_bytes =? 0)%nat then
      let hc := Z.to_nat (read_u32 bs 8) in
      if (hc <=? tail / hole_size_bytes)%nat
      then Ok (read_u64 bs 0, map (hole_at bs) (seq 0 hc))
      else Err SliceOutOfRange
    else Err CastFailed
  else Err CastFailed.

(** [PmuTfi::ref_from_prefix(data).unwrap()], then
    [p.entries[..p.nvalid as usize]]. *)
Definition decode_pmu_tfi (bs : list Z) : result (list PmuTfiEntry) :=
  if (pmu_tfi_size <=? length bs)%nat then
    let nv := Z.to_nat (read_u32 bs 0) in
    if (nv <=? 40)%nat then Ok (map (tfi_entry_at bs) (seq 0 nv))
    else Err SliceOutOfRange
  else Err CastFailed.

Inductive View :=
  | V_Header (h : ApobHeader)
  | V_EventLog (evs : list MilanApobEvent)
  | V_MemMap (high_phys : Z) (holes : list ApobSysMemMapHole)
  | V_Pmu (ents : list PmuTfiEntry).

Definition result_map {A B} (f : A -> B) (r : result A) : result B :=
  x <- r ;; Ok (f x).

(** [decode_item] of main.rs: [Ok None] when the record has no decoder. *)
Definition decode_item (e : ApobEntry) (d : list Z) : result (option View) :=
  match group_of e with
  | Some GENERAL =>
      if Z.eqb (ty e) 6 then result_map (fun l => Some (V_EventLog l))
                                        (decode_event_log d)
      else Ok None
  | Some FABRIC =>
      if Z.eqb (ty e) 9 then result_map (fun '(hp, hs) => Some (V_MemMap hp hs))
                                        (decode_sys_mem_map d)
      else Ok None
  | Some MEMORY =>
      if Z.eqb (ty e) 22 then result_map (fun l => Some (V_Pmu l))
                                         (decode_pmu_tfi d)
      else Ok None
  | _ => Ok None
  end.

Inductive SpecializedTag :=
  | Tag_Header | Tag_EventLog | Tag_MemMap | Tag_PmuTrainingFailure.

(** [App::specialized]. *)
Definition specialized (i : Item) : option SpecializedTag :=
  match i with
  | Item_Entry h =>
      match group_of h with
      | Some GENERAL => if Z.eqb (ty h) 6 then Some Tag_EventLog else None
      | Some FABRIC => if Z.eqb (ty h) 9 then Some Tag_MemMap else None
      | Some MEMORY =>
          if Z.eqb (ty h) 22 then Some Tag_PmuTrainingFailure else None
      | _ => None
      end
  | Item_Header _ => Some Tag_Header
  | Item_Padding => None
  end.

(** The decoding done by [App::render_specialized] for tag [s] on the
    selected item (the drawing itself is not modelled). *)
Definition specialized_view (it : Entry) (s : SpecializedTag) : result View :=
  match s with
  | Tag_MemMap => result_map (fun '(hp, hs) => V_MemMap hp hs)
                             (decode_sys_mem_map (data it))
  | Tag_EventLog => result_map V_EventLog (decode_event_log (data it))
  | Tag_PmuTrainingFailure => result_map V_Pmu (decode_pmu_tfi (data it))
  | Tag_Header =>
      match entry it with
      | Item_Header h => Ok (V_Header h)
      | _ => Err ExplicitPanic
      end
  end.

(* ------------------------------------------------------------------ *)
(** ** The browser state ([App], apob-cli/src/app.rs) *)

(** [usize] arithmetic as a debug build runs it: overflow and division
    by zero panic. *)
Definition USIZE_MAX : N := (2 ^ 64 - 1)%N.

Definition uadd (a b : N) : result N :=
  if (a + b <=? USIZE_MAX)%N then Ok (a + b)%N else Err UsizeOverflow.
Definition usub (a b : N) : result N :=
  if (b <=? a)%N then Ok (a - b)%N else Err UsizeOverflow.
Definition umul (a b : N) : result N :=
  if (a * b <=? USIZE_MAX)%N then Ok (a * b)%N else Err UsizeOverflow.
Definition udiv (a b : N) : result N :=
  if (b =? 0)%N then Err DivideByZero else Ok (a / b)%N.
(** [usize::div_ceil] *)
Definition div_ceil (a b : N) : result N :=
  if (b =? 0)%N then Err DivideByZero
  else Ok (a / b + (if (a mod b =? 0)%N then 0 else 1))%N.
(** [usize::saturating_sub] is [N.sub]; [usize::min] is [N.min]. *)

Inductive DataGrouping := Byte | Word | DoubleWord | QuadWord.
Inductive Endian := Little | Big.

(** [DataGrouping::bytes] *)
Definition grouping_bytes (g : DataGrouping) : N :=
  match g with Byte => 1 | Word => 2 | DoubleWord => 4 | QuadWord => 8 end%N.

(** The [App] struct.  [item_sel] and [data_sel] are the [selected()]
    rows of [item_state] and [data_state]; the table offsets, which only
    the drawing uses, and the sub-tables of [specialized_state] are left
    out. *)
Record App := {
  items : list Entry;
  item_sel : option N;
  data_sel : option N;
  data_scroll_cache : gmap N N;
  data_scroll_max : N;
  data_width : N;
  data_endian : Endian;
  data_focus : bool;
  data_grouping : DataGrouping;
  data_colors : bool;
  specialized_state : option SpecializedTag;
  window_height : N;
}.

(** Field assignments ([self.x = v]). *)
Definition set_item_sel (s : App) (v : option N) : App :=
  {| items := items s; item_sel := v; data_sel := data_sel s;
     data_scroll_cache := data_scroll_cache s;
     data_scroll_max := data_scroll_max s; data_width := data_width s;
     data_endian := data_endian s; data_focus := data_focus s;
     data_grouping := data_grouping s; data_colors := data_colors s;
     specialized_state := specialized_state s;
     window_height := window_height s |}.
Definition set_data_sel (s : App) (v : option N) : App :=
  {| items := items s; item_sel := item_sel s; data_sel := v;
     data_scroll_cache := data_scroll_cache s;
     data_scroll_max := data_scroll_max s; data_width := data_width s;
     data_endian := data_endian s; data_focus := data_focus s;
     data_grouping := data_grouping s; data_colors := data_colors s;
     specialized_state := specialized_state s;
     window_height := window_height s |}.
Definition set_cache (s : App) (v : gmap N N) : App :=
  {| items := items s; item_sel := item_sel s; data_sel := data_sel s;
     data_scroll_cache := v;
     data_scroll_max := data_scroll_max s; data_width := data_width s;
     data_endian := data_endian s; data_focus := data_focus s;
     data_grouping := data_grouping s; data_colors := data_colors s;
     specialized_state := specialized_state s;
     window_height := window_height s |}.
Definition set_scroll_max (s : App) (v : N) : App :=
  {| items := items s; item_sel := item_sel s; data_sel := data_sel s;
     data_scroll_cache := data_scroll_cache s;
     data_scroll_max := v; data_width := data_width s;
     data_endian := data_endian s; data_focus := data_focus s;
     data_grouping := data_grouping s; data_colors := data_colors s;
     specialized_state := specialized_state s;
     window_height := window_height s |}.
Definition set_width (s : App) (v : N) : App :=
  {| items := items s; item_sel := item_sel s; data_sel := data_sel s;
     data_scroll_cache := data_scroll_cache s;
     data_scroll_max := data_scroll_max s; data_width := v;
     data_endian := data_endian s; data_focus := data_focus s;
     data_grouping := data_grouping s; data_colors := data_colors s;
     specialized_state := specialized_state s;
     window_height := window_height s |}.
Definition set_display (s : App) (en : Endian) (f : bool) (g : DataGrouping)
    (c : bool) : App :=
  {| items := items s; item_sel := item_sel s; data_sel := data_sel s;
     data_scroll_cache := data_scroll_cache s;
     data_scroll_max := data_scroll_max s; data_width := data_width s;
     data_endian := en; data_focus := f; data_grouping := g;
     data_colors := c; specialized_state := specialized_state s;
     window_height := window_height s |}.
Definition set_window_height (s : App) (v : N) : App :=
  {| items := items s; item_sel := item_sel s; data_sel := data_sel s;
     data_scroll_cache := data_scroll_cache s;
     data_scroll_max := data_scroll_max s; data_width := data_width s;
     data_endian := data_endian s; data_focus := data_focus s;
     data_grouping := data_grouping s; data_colors := data_colors s;
     specialized_state := specialized_state s; window_height := v |}.
Definition set_specialized (s : App) (v : option SpecializedTag) : App :=
  {| items := items s; item_sel := item_sel s; data_sel := data_sel s;
     data_scroll_cache := data_scroll_cache s;
     data_scroll_max := data_scroll_max s; data_width := data_width s;
     data_endian := data_endian s; data_focus := data_focus s;
     data_grouping := data_grouping s; data_colors := data_colors s;
     specialized_state := v; window_height := window_height s |}.

Definition item_at (s : App) (i : N) : result Entry :=
  unwrap IndexOutOfBounds (items s !! N.to_nat i).

Definition payload_len (it : Entry) : N := N.of_nat (length (data it)).

(** [App::set_item_scroll] *)
Definition set_item_scroll (i : N) (s : App) : result App :=
  let s1 := set_item_sel s (Some i) in
  let s2 := set_data_sel s1
              (Some (default 0%N (data_scroll_cache s1 !! i))) in
  it <- item_at s2 i ;;
  mx <- div_ceil (payload_len it) (data_width s2) ;;
  Ok (set_scroll_max s2 mx).

(** [App::set_data_scroll] *)
Definition set_data_scroll (i : N) (s : App) : App :=
  let s1 := match item_sel s with
            | Some j => set_cache s (<[j := i]> (data_scroll_cache s))
            | None => s
            end in
  set_data_sel s1 (Some i).

(** [App::next_item_row] *)
Definition next_item_row (d : N) (s : App) : result App :=
  i <- match item_sel s with
       | Some i => x <- uadd i d ;;
                   n <- usub (N.of_nat (length (items s))) 1 ;;
                   Ok (N.min x n)
       | None => Ok 0%N
       end ;;
  set_item_scroll i s.

(** [App::prev_item_row] *)
Definition prev_item_row (d : N) (s : App) : result App :=
  let i := match item_sel s with Some i => (i - d)%N | None => 0%N end in
  set_item_scroll i s.

(** [App::next_data_row] *)
Definition next_data_row (d : N) (s : App) : result App :=
  i <- match data_sel s with
       | Some i => x <- uadd i d ;;
                   m <- usub (data_scroll_max s) 1 ;;
                   Ok (N.min x m)
       | None => Ok 0%N
       end ;;
  Ok (set_data_scroll i s).

(** [App::prev_data_row] *)
Definition prev_data_row (d : N) (s : App) : result App :=
  let i := match data_sel s with Some i => (i - d)%N | None => 0%N end in
  Ok (set_data_scroll i s).

(** The [for (_, row) in self.data_scroll_cache.iter_mut()] loop: every
    cached row is rewritten, in the map's iteration order. *)
Fixpoint rescale_rows (f : N -> result N) (l : list (N * N))
  : result (list (N * N)) :=
  match l with
  | [] => Ok []
  | (k, v) :: l' => v' <- f v ;; rest <- rescale_rows f l' ;;
                    Ok ((k, v') :: rest)
  end.

(** [App::resize_data] *)
Definition resize_data (w : N) (s : App) : result App :=
  if decide (w = data_width s) then Ok s else
  let rescale (row : N) := index <- umul row (data_width s) ;; udiv index w in
  rows <- rescale_rows rescale (map_to_list (data_scroll_cache s)) ;;
  let s1 := set_cache s (list_to_map rows) in
  s2 <- match data_sel s1 with
        | Some row => index <- umul row (data_width s1) ;;
                      r <- udiv index w ;;
                      Ok (set_data_scroll r s1)
        | None => Ok s1
        end ;;
  Ok (set_width s2 w).

(** [App::new] *)
Definition app_new (its : list Entry) : result App :=
  set_item_scroll 0
    {| items := its; item_sel := Some 0%N; data_sel := Some 0%N;
       data_scroll_cache := ∅; data_scroll_max := 1; data_width := 8;
       data_endian := Little; data_focus := false; data_grouping := Byte;
       data_colors := false; specialized_state := None;
       window_height := 16 |}.

(** The specialized part of [App::draw] without the pane geometry: the
    tag of the selected item, then the decoding [render_specialized]
    does or [clear_specialized].  The full frame, with the pane
    rectangles, is [draw_state] below. *)
Definition draw_specialized (s : App) : result App :=
  match item_sel s with
  | None => Ok (set_specialized s None)
  | Some i =>
      it <- item_at s i ;;
      match specialized (entry it) with
      | Some t => _ <- specialized_view it t ;; Ok (set_specialized s (Some t))
      | None => Ok (set_specialized s None)
      end
  end.

(* ------------------------------------------------------------------ *)
(** ** The event loop ([App::run]) *)

Inductive KeyCode :=
  | KChar (c : Ascii.ascii) | KDown | KUp | KLeft | KRight
  | KPageDown | KPageUp | KEsc | KOther.

Inductive MouseKind := MDownLeft | MScrollDown | MScrollUp | MOtherMouse.

(** crossterm's [event::read()] results: a key event ([press] is
    [key.kind == KeyEventKind::Press]), a mouse event, any other event,
    or a read error. *)
Inductive Event :=
  | EvKey (code : KeyCode) (press : bool)
  | EvMouse (kind : MouseKind) (column row : N)
  | EvOther
  | EvError.

Inductive Step :=
  | Break
  | Continue (s : App) (momentum : N) (wheel : option N).

(** The poll timeout (50 ms) and the momentum cap. *)
Definition POLL_MS : N := 50.
Definition MAX_MOMENTUM : N := 16.

Definition next_row (d : N) (s : App) : result App :=
  if data_focus s then next_data_row d s else next_item_row d s.
Definition prev_row (d : N) (s : App) : result App :=
  if data_focus s then prev_data_row d s else prev_item_row d s.

(** One iteration of the loop after [terminal.draw]: [ready] is the
    result of [event::poll(50 ms)] (an event arrived within the poll
    timeout), [e] the event then read, [m] the [scroll_momentum] before
    the iteration and [tbl_off] the item table's [offset()] left by the
    last draw.  [wheel] records the delta a wheel event was applied with. *)
Definition run_step (tbl_off : N) (ready : bool) (e : Event) (s0 : App)
    (m0 : N) : result Step :=
  let s := match e with
           | EvMouse _ col _ => set_display s0 (data_endian s0) (45 <? col)%N
                                  (data_grouping s0) (data_colors s0)
           | _ => s0
           end in
  let m := if ready then m0 else 1%N in
  let after (r : result App) :=
    s' <- r ;; Ok (Continue s' 1%N None) in
  let display en f g c :=
    Ok (Continue (set_display s en f g c) 1%N None) in
  let en := data_endian s in
  let f := data_focus s in
  let g := data_grouping s in
  let c := data_colors s in
  match e with
  | EvKey k true =>
      match k with
      | KChar "0" => after (if f then Ok (set_data_scroll 0 s)
                            else set_item_scroll 0 s)
      | KChar "1" => display en f Byte c
      | KChar "2" => display en f Word c
      | KChar "4" => display en f DoubleWord c
      | KChar "8" => display en f QuadWord c
      | KChar "e" => display (match en with Big => Little | Little => Big end)
                       f g c
      | KChar "q" | KEsc => Ok Break
      | KChar "j" | KDown => after (next_row 1 s)
      | KChar "k" | KUp => after (prev_row 1 s)
      | KChar "l" | KRight => display en true g c
      | KChar "h" | KLeft => display en false g c
      | KChar "c" => display en f g (negb c)
      | KPageDown => after (next_row (window_height s) s)
      | KPageUp => after (prev_row (window_height s) s)
      | _ => Ok (Continue s 1%N None)
      end
  | EvMouse MDownLeft _ row =>
      if negb f then
        x <- uadd tbl_off row ;;
        if (2 <=? x)%N then
          (if (x - 2 <? N.of_nat (length (items s)))%N
           then after (set_item_scroll (x - 2) s)
           else Ok (Continue s 1%N None))
        else Ok (Continue s 1%N None)
      else Ok (Continue s 1%N None)
  | EvMouse MScrollDown _ _ =>
      s' <- next_row m s ;;
      Ok (Continue s' (if ready then N.min (m + 1) MAX_MOMENTUM else 1%N)
                   (Some m))
  | EvMouse MScrollUp _ _ =>
      s' <- prev_row m s ;;
      Ok (Continue s' (if ready then N.min (m + 1) MAX_MOMENTUM else 1%N)
                   (Some m))
  | EvError => Ok Break
  | _ => Ok (Continue s 1%N None)
  end.

(** The loop over a sequence of (poll result, event) pairs, each
    iteration starting with the drawing step [draw] (the terminal
    rendering, a parameter here).  Returns the final state and momentum
    and the deltas applied to the wheel events.  The item table's
    [offset()], which a click reads, is held at [tbl_off] throughout. *)
Fixpoint run_loop (draw : App -> result App) (tbl_off : N)
    (evs : list (bool * Event)) (s : App) (m : N)
  : result (App * N * list N) :=
  match evs with
  | [] => Ok (s, m, [])
  | (ready, e) :: evs' =>
      s1 <- draw s ;;
      st <- run_step tbl_off ready e s1 m ;;
      match st with
      | Break => Ok (s1, m, [])
      | Continue s2 m2 w =>
          r <- run_loop draw tbl_off evs' s2 m2 ;;
          let '(s3, m3, ds) := r in
          Ok (s3, m3, match w with Some d => d :: ds | None => ds end)
      end
  end.

Definition is_wheel (e : Event) : bool :=
  match e with
  | EvMouse MScrollDown _ _ | EvMouse MScrollUp _ _ => true
  | _ => false
  end.

(** Size of the fixed structure each specialized view overlays. *)
Definition fixed_size (t : SpecializedTag) : nat :=
  match t with
  | Tag_Header => header_size
  | Tag_EventLog => event_log_size
  | Tag_MemMap => sys_mem_map_size
  | Tag_PmuTrainingFailure => pmu_tfi_size
  end.

(** The data-pane scroll operations ([next_data_row], [prev_data_row],
    [set_data_scroll]) and a sequence of them. *)
Inductive DataOp := DNext (d : N) | DPrev (d : N) | DSet (r : N).

Definition data_op (o : DataOp) (s : App) : result App :=
  match o with
  | DNext d => next_data_row d s
  | DPrev d => prev_data_row d s
  | DSet r => Ok (set_data_scroll r s)
  end.

Fixpoint run_data_ops (ops : list DataOp) (s : App) : result App :=
  match ops with
  | [] => Ok s
  | o :: ops' => s' <- data_op o s ;; run_data_ops ops' s'
  end.

(** The deltas the loop applies to a run of wheel events: the first
    event (poll result [r1], momentum [m] before it), then [n] events
    each arriving within the poll timeout. *)
Definition momentum_deltas (m : N) (r1 : bool) (n : nat) : list N :=
  (if r1 then m else 1%N)
  :: map (fun k => N.min ((if r1 then N.min (m + 1) MAX_MOMENTUM else 1)
                          + N.of_nat k) MAX_MOMENTUM)%N
         (seq 0 n).

Definition get_ok {A} (d : A) (r : result A) : A :=
  match r with Ok a => a | Err _ => d end.

Definition empty_app : App :=
  {| items := []; item_sel := None; data_sel := None;
     data_scroll_cache := ∅; data_scroll_max := 1; data_width := 8;
     data_endian := Little; data_focus := false; data_grouping := Byte;
     data_colors := false; specialized_state := None;
     window_height := 16 |}.

(* ------------------------------------------------------------------ *)
(** ** The listing of [main] and the item table of [App::render_table] *)

(** [entry.size as usize - std::mem::size_of_val(entry)], a [usize]
    subtraction that panics ([None]) below 48. *)
Definition data_size (e : ApobEntry) : option nat :=
  if (entry_header_size <=? Z.to_nat (size e))%nat
  then Some (Z.to_nat (size e) - entry_header_size)%nat else None.

(** A row of the listing [main] prints without [--interactive] (the
    [--raw] and [--decode] parts are left out): offset, group, type with
    the cancel bits masked, instance, payload size. *)
Record ListRow := {
  lr_offset : nat;
  lr_group : ApobGroup;
  lr_ty : Z;
  lr_inst : Z;
  lr_data_size : nat;
}.

(** The [for item in &entries] loop of [main]: the rows printed, and
    whether the loop ran to its end ([false]: it panicked at
    [entry.group().unwrap()] or at the size subtraction, after printing
    the rows before it). *)
Fixpoint listing (its : list Entry) : list ListRow * bool :=
  match its with
  | [] => ([], true)
  | it :: its' =>
      match entry it with
      | Item_Entry e =>
          match group_of e with
          | None => ([], false)
          | Some g =>
              match data_size e with
              | None => ([], false)
              | Some n =>
                  let '(rows, ok) := listing its' in
                  ({| lr_offset := offset it; lr_group := g;
                      lr_ty := Z.land (ty e) (u32_not APOB_CANCELLED);
                      lr_inst := inst e; lr_data_size := n |} :: rows, ok)
              end
          end
      | _ => listing its'
      end
  end.

(** The mark after the group name in the item table: [*] for a
    cancelled record, [+] for one with a specialized view. *)
Inductive Marker := Mark_Cancelled | Mark_Specialized | Mark_None.

Inductive TableRow :=
  | TR_Entry (off : nat) (g : ApobGroup) (m : Marker) (t i : Z) (dsize : nat)
  | TR_Header (off : nat)
  | TR_Padding (off : nat) (len : nat).

(** One row of [App::render_table] ([None]: building it panics, at
    [entry.group().unwrap()] or at the size subtraction). *)
Definition table_row (it : Entry) : option TableRow :=
  match entry it with
  | Item_Entry e =>
      match group_of e with
      | None => None
      | Some g =>
          let m := if cancelled e then Mark_Cancelled
                   else match specialized (entry it) with
                        | Some _ => Mark_Specialized
                        | None => Mark_None
                        end in
          match data_size e with
          | None => None
          | Some n => Some (TR_Entry (offset it) g m
                              (Z.land (ty e) (u32_not APOB_CANCELLED))
                              (inst e) n)
          end
      end
  | Item_Header _ => Some (TR_Header (offset it))
  | Item_Padding => Some (TR_Padding (offset it) (length (data it)))
  end.

Fixpoint table_rows (its : list Entry) : option (list TableRow) :=
  match its with
  | [] => Some []
  | it :: its' =>
      match table_row it, table_rows its' with
      | Some r, Some rs => Some (r :: rs)
      | _, _ => None
      end
  end.

(* ------------------------------------------------------------------ *)
(** ** Hex and character formatting *)

(** A lower-case hex digit. *)
Definition hex_digit (d : Z) : ascii :=
  ascii_of_nat (Z.to_nat (if d <? 10 then 48 + d else 87 + d)).

(** The last [w] hex digits of [v], most significant first. *)
Fixpoint hex_pad (w : nat) (v : Z) : list ascii :=
  match w with
  | O => []
  | S w' => hex_pad w' (v / 16) ++ [hex_digit (v mod 16)]
  end.

(** The number of hex digits [{:x}] prints for [v] (at least one; the
    fuel covers every value below [16^64], so every [u64]). *)
Fixpoint hex_ndigits_fuel (fuel : nat) (v : Z) : nat :=
  match fuel with
  | O => 1
  | S f => if v <? 16 then 1 else S (hex_ndigits_fuel f (v / 16))
  end.

Definition hex_ndigits (v : Z) : nat := hex_ndigits_fuel 64 v.

(** [format!("{v:0w$x}")]: the hex digits of [v], left-padded with
    zeros to [w] characters. *)
Definition fmt_hex (w : nat) (v : Z) : list ascii :=
  repeat "0"%char (w - hex_ndigits v) ++ hex_pad (hex_ndigits v) v.

(** [u8::is_ascii] and [u8::is_ascii_control]. *)
Definition is_ascii (b : Z) : bool := b <? 128.
Definition is_ascii_control (b : Z) : bool := (b <=? 31) || (b =? 127).

(** The character [print_hex] and [render_data] show for a byte in their
    ASCII column. *)
Definition shown_char (b : Z) : ascii :=
  if is_ascii b && negb (is_ascii_control b)
  then ascii_of_nat (Z.to_nat b) else "."%char.

(** [slice::chunks(n)]: consecutive pieces of [n] elements, the last one
    shorter when [n] does not divide the length.  [chunks(0)] panics; the
    code only calls it with 16, the row width (8 or 16) and the group
    size (1, 2, 4 or 8). *)
Fixpoint chunks_fuel {A} (fuel n : nat) (l : list A) : list (list A) :=
  match fuel with
  | O => []
  | S f => match l with
           | [] => []
           | _ :: _ => take n l :: chunks_fuel f n (drop n l)
           end
  end.

Definition chunks {A} (n : nat) (l : list A) : list (list A) :=
  chunks_fuel (length l) n l.

(* ------------------------------------------------------------------ *)
(** ** [print_hex] (main.rs) *)

Definition hex_header : list ascii :=
  list_ascii_of_string
    "            00 01 02 03 04 05 06 07 08 09 0a 0b 0c 0d 0e 0f".

(** One line of the dump (without its newline) for the chunk [d] at
    address [addr]. *)
Definition hex_line (addr : nat) (d : list Z) : list ascii :=
  list_ascii_of_string "    " ++ fmt_hex 4 (Z.of_nat addr)
  ++ list_ascii_of_string " |  "
  ++ concat (map (fun c => fmt_hex 2 c ++ [" "%char]) d)
  ++ concat (repeat (list_ascii_of_string "   ") (16 - length d))
  ++ list_ascii_of_string "| "
  ++ map shown_char d.

(** The [for d in data.chunks(16)] loop with its [addr += d.len()]. *)
Fixpoint hex_lines (addr : nat) (ds : list (list Z)) : list (list ascii) :=
  match ds with
  | [] => []
  | d :: ds' => hex_line addr d :: hex_lines (addr + length d) ds'
  end.

(** The lines [print_hex] writes (the writer is taken never to fail). *)
Definition print_hex (bs : list Z) : list (list ascii) :=
  hex_header :: hex_lines 0 (chunks 16 bs).

(* ------------------------------------------------------------------ *)
(** ** The payload pane ([App::render_data], [App::data_style]) *)

Inductive Style := St_Plain | St_Dim | St_Yellow | St_Cyan | St_Blue | St_Green.

(** [App::data_style] *)
Definition data_style (b : list Z) : Style :=
  if forallb (fun x => Z.eqb x 0) b then St_Dim
  else if forallb (fun x => Z.eqb x 255) b then St_Yellow
  else match b with
  | [x] => if Z.eqb (Z.land x 15) 0 then St_Cyan
           else if Z.eqb (Z.land x 240) 0 then St_Blue else St_Green
  | [x0; x1] => if Z.eqb x0 0 then St_Cyan
                else if Z.eqb x1 0 then St_Blue else St_Green
  | [x0; x1; x2; x3] =>
      if Z.eqb x0 0 && Z.eqb x1 0 then St_Cyan
      else if Z.eqb x2 0 && Z.eqb x3 0 then St_Blue else St_Green
  | [x0; x1; x2; x3; x4; x5; x6; x7] =>
      if Z.eqb x0 0 && Z.eqb x1 0 && Z.eqb x2 0 && Z.eqb x3 0 then St_Cyan
      else if Z.eqb x4 0 && Z.eqb x5 0 && Z.eqb x6 0 && Z.eqb x7 0
      then St_Blue else St_Green
  | _ => St_Plain
  end.

(** The text of a group cell: each byte as [{:02x}], last byte first in
    little-endian mode. *)
Definition group_text (en : Endian) (c : list Z) : list ascii :=
  match en with
  | Little => concat (map (fmt_hex 2) (rev c))
  | Big => concat (map (fmt_hex 2) c)
  end.

Inductive Cell :=
  | Cell_Offset (o : nat)
  | Cell_Group (txt : list ascii) (st : Style)
  | Cell_Empty
  | Cell_Ascii (txt : list ascii).

(** The row [render_data] builds for the [o]-th chunk [c] of the payload,
    with row width [width] and group size [bs]. *)
Definition data_row (width bs : nat) (en : Endian) (colors : bool) (o : nat)
    (c : list Z) : list Cell :=
  Cell_Offset (o * width)
  :: map (fun g => Cell_Group (group_text en g)
                              (if colors then data_style g else St_Plain))
         (chunks bs c)
  ++ repeat Cell_Empty (width / bs - length c / bs)
  ++ [Cell_Ascii (map shown_char c)].

Definition data_rows (width bs : nat) (en : Endian) (colors : bool)
    (payload : list Z) : list (list Cell) :=
  imap (data_row width bs en colors) (chunks width payload).

(** The column constraints of the payload table: the offset, [width / bs]
    groups and the ASCII text. *)
Definition data_columns (width bs : nat) : nat := (1 + width / bs + 1)%nat.

(* ------------------------------------------------------------------ *)
(** ** A frame of [App::draw] *)

(** The rectangles [App::draw] lays out, for a terminal at least 45
    columns wide: [Layout::horizontal([Length(45), Fill(1)])] gives the
    item table a 45-column pane of the terminal's height and the rest to
    the right column, which [Layout::vertical] splits into the payload
    pane, the specialized pane (only when the selected item has a
    specialized view) and the one-row help line. *)
Record Geometry := {
  item_pane_height : N;        (* rects[0].height *)
  data_pane_width : N;         (* rects[1].width *)
  data_pane_height_spec : N;   (* the payload pane's height, [Fill(1), Fill(1), Length(1)] *)
  data_pane_height_plain : N;  (* the payload pane's height, [Fill(1), Length(1)] *)
  spec_pane_y : N;             (* the specialized pane's [y] *)
  spec_pane_height : N;        (* and its height *)
}.

(** An 80x25 terminal: the right column is 35 wide; its 24 rows above the
    help line are split 12 / 12 when a specialized view is shown. *)
Definition geometry_80x25 : Geometry :=
  {| item_pane_height := 25; data_pane_width := 35;
     data_pane_height_spec := 12; data_pane_height_plain := 24;
     spec_pane_y := 12; spec_pane_height := 12 |}.

(** A 130x25 terminal: as above with an 85-column right column. *)
Definition geometry_130x25 : Geometry :=
  {| item_pane_height := 25; data_pane_width := 85;
     data_pane_height_spec := 12; data_pane_height_plain := 24;
     spec_pane_y := 12; spec_pane_height := 12 |}.

(** An 80x3 terminal: the two rows above the help line are split 1 / 1
    when a specialized view is shown. *)
Definition geometry_80x3 : Geometry :=
  {| item_pane_height := 3; data_pane_width := 35;
     data_pane_height_spec := 1; data_pane_height_plain := 2;
     spec_pane_y := 1; spec_pane_height := 1 |}.

Definition U16_MAX : N := 65535.

(** [u16] addition, checked in a debug build. *)
Definition u16_add (a b : N) : result N :=
  if (a + b <=? U16_MAX)%N then Ok (a + b)%N else Err UsizeOverflow.

(** Whether ratatui's [Table] render, on a [w] x [h] area inside a
    [Block] with [Borders::ALL], reaches its selection handling: it
    returns early when the block's inner area ([w - 2] x [h - 2],
    saturating) is empty. *)
Definition table_shown (w h : N) : bool := (2 <? w)%N && (2 <? h)%N.

(** The selection update of ratatui's [Table] render for a table of
    [nrows] rows:
    [if selected >= rows.len() { select(Some(rows.len().saturating_sub(1))) }]
    then [if rows.is_empty() { select(None) }]. *)
Definition table_select (shown : bool) (nrows : nat) (sel : option N)
  : option N :=
  if shown then
    let sel1 := match sel with
                | Some r => if (N.of_nat nrows <=? r)%N
                            then Some (N.of_nat nrows - 1)%N else Some r
                | None => None
                end in
    if (nrows =? 0)%nat then None else sel1
  else sel.

(** The rows [App::render_table] builds (eagerly, in [Table::new]); only
    their panics matter to the state: [entry.group().unwrap()], then the
    size subtraction. *)
Definition render_table_row (it : Entry) : result unit :=
  match entry it with
  | Item_Entry e =>
      _ <- unwrap UnwrapNone (group_of e) ;;
      _ <- unwrap UsizeOverflow (data_size e) ;;
      Ok tt
  | _ => Ok tt
  end.

Fixpoint render_table_rows (its : list Entry) : result unit :=
  match its with
  | [] => Ok tt
  | it :: its' => _ <- render_table_row it ;; render_table_rows its'
  end.

(** [App::render_table] on a pane of height [h] (45 columns wide). *)
Definition render_table (h : N) (s : App) : result App :=
  _ <- render_table_rows (items s) ;;
  Ok (set_item_sel s (table_select (table_shown 45 h) (length (items s))
                                   (item_sel s))).

(** [App::render_data] on a [w] x [h] pane: the [u16] subtraction
    [area.width - 3], the row width, [resize_data], and the [Table]
    render over the [chunks(width)] of the selected payload (the row
    cells do not panic: a chunk is never longer than [width]). *)
Definition render_data (w h : N) (s : App) : result App :=
  available_width <- usub w 3 ;;
  let width := if (8 + 1 + 16 * 3 + 16 <=? available_width)%N
               then 16%N else 8%N in
  s1 <- resize_data width s ;;
  match item_sel s1 with
  | None => Ok s1
  | Some i =>
      it <- item_at s1 i ;;
      let nrows := length (chunks (N.to_nat width) (data it)) in
      Ok (set_data_sel s1 (table_select (table_shown w h) nrows (data_sel s1)))
  end.

(** [App::render_specialized] for tag [t] on a pane at row [y] of height
    [h]: the state is reset to [t]'s, the selected item is decoded, and
    the memory-map view moves its hole table below its 3-row header with
    the [u16] updates [rect.y += 3; rect.height -= 3]. *)
Definition render_specialized (t : SpecializedTag) (y h : N) (s : App)
  : result App :=
  let s1 := set_specialized s (Some t) in
  i <- unwrap UnwrapNone (item_sel s1) ;;
  it <- item_at s1 i ;;
  _ <- specialized_view it t ;;
  match t with
  | Tag_MemMap => _ <- u16_add y 3 ;; _ <- usub h 3 ;; Ok s1
  | _ => Ok s1
  end.

(** [App::draw] in a terminal of geometry [g]: the drawing step of one
    loop iteration.  The item table's scroll offset, which ratatui also
    updates, is not part of the modelled state. *)
Definition draw_state (g : Geometry) (s0 : App) : result App :=
  let s := set_window_height s0 (item_pane_height g - 3)%N in
  s1 <- render_table (item_pane_height g) s ;;
  spec <- match item_sel s1 with
          | Some i => it <- item_at s1 i ;; Ok (specialized (entry it))
          | None => Ok None
          end ;;
  let h := match spec with
           | Some _ => data_pane_height_spec g
           | None => data_pane_height_plain g
           end in
  s2 <- render_data (data_pane_width g) h s1 ;;
  match spec with
  | Some t => render_specialized t (spec_pane_y g) (spec_pane_height g) s2
  | None => Ok (set_specialized s2 None)
  end.

(* ------------------------------------------------------------------ *)
(** ** The event-log words ([MilanTrainErrorData0], [MilanTrainErrorData1]) *)

Definition train_sock (w : Z) : Z := Z.land w 255.
Definition train_chan (w : Z) : Z := Z.land (Z.shiftr w 8) 255.
Definition train_dimm (w : Z) : Z := Z.land (Z.shiftr w 16) 3.
Definition train_rank (w : Z) : Z := Z.land (Z.shiftr w 24) 15.
Definition pmu_load (w : Z) : bool := negb (Z.eqb (Z.land w 1) 0).
Definition pmu_train (w : Z) : bool := negb (Z.eqb (Z.land w 2) 0).

(* ------------------------------------------------------------------ *)
(** ** Memory images of the decoded structs ([#[repr(C)]], little endian) *)

Definition event_bytes (v : MilanApobEvent) : list Z :=
  le_encode 4 (class v) ++ le_encode 4 (info v) ++ le_encode 4 (data0 v)
  ++ le_encode 4 (data1 v).

(** [MilanApobEventLog]: [count], [_pad], then the 64 events. *)
Definition event_log_bytes (count pad : Z) (evs : list MilanApobEvent)
  : list Z :=
  le_encode 2 count ++ le_encode 2 pad ++ concat (map event_bytes evs).

Definition hole_bytes (h : ApobSysMemMapHole) (pad : Z) : list Z :=
  le_encode 8 (hole_base h) ++ le_encode 8 (hole_size h)
  ++ le_encode 4 (hole_ty h) ++ le_encode 4 pad.

(** [ApobSysMemMap] followed by its holes (all padding fields 0). *)
Definition mem_map_bytes (high_phys hole_count : Z)
    (hs : list ApobSysMemMapHole) : list Z :=
  le_encode 8 high_phys ++ le_encode 4 hole_count ++ le_encode 4 0
  ++ concat (map (fun h => hole_bytes h 0) hs).

Definition tfi_entry_bytes (t : PmuTfiEntry) : list Z :=
  le_encode 4 (bits t) ++ le_encode 4 (error t)
  ++ concat (map (le_encode 4) (tfi_data t)).

(** [PmuTfi]: [nvalid], then the 40 entries. *)
Definition pmu_tfi_bytes (nvalid : Z) (ts : list PmuTfiEntry) : list Z :=
  le_encode 4 nvalid ++ concat (map tfi_entry_bytes ts).

(** A record item of a parse of [bytes]: its header is the 48 bytes read
    at its (4-aligned) offset, its size lies in [48, remaining] and its
    payload is the rest of its [size] bytes. *)
Definition record_at (bytes : list Z) (r : Entry) : Prop :=
  exists e, entry r = Item_Entry e
  /\ e = entry_of_bytes (drop (offset r) bytes)
  /\ Nat.modulo (offset r) 4 = 0%nat
  /\ (entry_header_size <= Z.to_nat (size e) <= length bytes - offset r)%nat
  /\ data r = take (Z.to_nat (size e) - entry_header_size)
                   (drop (offset r + entry_header_size) bytes).

(** Field ranges of the decoded structs ([u32] and [u64] fields). *)
Definition event_in_range (v : MilanApobEvent) : Prop :=
  0 <= class v < 2 ^ 32 /\ 0 <= info v < 2 ^ 32
  /\ 0 <= data0 v < 2 ^ 32 /\ 0 <= data1 v < 2 ^ 32.

Definition hole_in_range (h : ApobSysMemMapHole) : Prop :=
  0 <= hole_base h < 2 ^ 64 /\ 0 <= hole_size h < 2 ^ 64
  /\ 0 <= hole_ty h < 2 ^ 32.

Definition tfi_in_range (t : PmuTfiEntry) : Prop :=
  0 <= bits t < 2 ^ 32 /\ 0 <= error t < 2 ^ 32
  /\ length (tfi_data t) = 4%nat /\ Forall (fun d => 0 <= d < 2 ^ 32) (tfi_data t).

(* ------------------------------------------------------------------ *)
(** Sample blobs. *)

Definition zeros (n : nat) : list Z := repeat 0 n.

(** Header with [offset = off], then [recs]. *)
Definition sample_header (off : Z) : list Z :=
  APOB_SIG ++ le_encode 4 APOB_VERSION ++ le_encode 4 0 ++ le_encode 4 off.

Definition sample_record (grp typ sz : Z) (payload : list Z) : list Z :=
  le_encode 4 grp ++ le_encode 4 typ ++ le_encode 4 0 ++ le_encode 4 sz
  ++ zeros 32 ++ payload.

(** The example of the spec: header with [offset = 64], 48 bytes of
    padding, one record (group 1, type 22) with a 4-byte payload. *)
Definition blob_sample : list Z :=
  sample_header 64 ++ zeros 48 ++ sample_record 1 22 52 [1; 2; 3; 4].

(** Header with [offset = 32], 16 bytes of padding, three records
    (group 1, type 1, no specialized view) with 4-byte payloads. *)
Definition blob_plain : list Z :=
  sample_header 32 ++ zeros 16
  ++ sample_record 1 1 52 [1; 2; 3; 4] ++ sample_record 1 1 52 [5; 6; 7; 8]
  ++ sample_record 1 1 52 [9; 10; 11; 12].

(** A record whose size field (100) exceeds the 48 bytes left. *)
Definition blob_overrun : list Z :=
  sample_header 16 ++ sample_record 1 22 100 [].

(** A record whose size field (100) exceeds the 20 bytes left, too few
    for its 48-byte header. *)
Definition blob_short_record : list Z :=
  sample_header 16 ++ take 20 (sample_record 1 22 100 []).

(** [v] is the [width]-bit field of [w] starting at bit [lo]: as
    arithmetic, as a range, and bit by bit. *)
Definition bit_field (v w lo width : Z) : Prop :=
  v = (w / 2 ^ lo) mod 2 ^ width
  /\ 0 <= v < 2 ^ width
  /\ forall n, 0 <= n -> Z.testbit v n = (n <? width) && Z.testbit w (n + lo).

(** A record that differs from [sample_entry] only in its group. *)
Definition sample_entry (g : Z) : ApobEntry :=
  {| group := g; ty := 22; inst := 0; size := 48; hmac := zeros 32 |}.

(** The viewer on the spec's example blob, fresh from [App::new]. *)
Definition sample_app : App := get_ok empty_app (app_new (parsed_items blob_sample)).
Definition plain_app : App := get_ok empty_app (app_new (parsed_items blob_plain)).

(** A header whose [offset] is 16 (empty padding) and one 48-byte record
    with no payload. *)
Definition blob_empty_padding : list Z :=
  sample_header 16 ++ sample_record 1 22 48 [].

(** The record of the spec's example: group 1, type 22, 4-byte payload. *)
Definition sample_pmu_item : Entry :=
  {| offset := 64; entry := Item_Entry (sample_entry 1); data := [1; 2; 3; 4] |}.

(** The viewer after selecting item 1, moving its data row down 3 and up
    1, selecting item 0 and then item 1 again. *)
Definition sample_s1 : App := get_ok empty_app (set_item_scroll 1 sample_app).
Definition sample_s2 : App := get_ok empty_app (run_data_ops [DNext 3; DPrev 1] sample_s1).
Definition sample_s3 : App := get_ok empty_app (set_item_scroll 0 sample_s2).
Definition sample_s4 : App := get_ok empty_app (set_item_scroll 1 sample_s3).

(** Four wheel-down events over the item list of the sample viewer, the
    first after a gap, the others in quick succession. *)
Definition wheel_run : list (bool * Event) :=
  (false, EvMouse MScrollDown 10 5)
  :: map (pair true) [EvMouse MScrollDown 10 5; EvMouse MScrollDown 10 5;
                      EvMouse MScrollDown 10 5].


(** A record whose size field is 0: too small to hold its own header. *)
Definition blob_zero_size : list Z :=
  sample_header 16 ++ sample_record 1 22 0 [].

(** A record with the group value 0x0001FFFF, which names no group. *)
Definition blob_unknown_group : list Z :=
  sample_header 16 ++ sample_record 131071 22 48 [].


(** The memory images used to exercise the decoders: 64 events, two
    holes, 40 PMU entries. *)
Definition sample_events : list MilanApobEvent :=
  map (fun k => {| class := Z.of_nat k; info := 2; data0 := 3; data1 := 4 |})
      (seq 0 64).
Definition sample_holes : list ApobSysMemMapHole :=
  [{| hole_base := 4096; hole_size := 8192; hole_ty := 1 |};
   {| hole_base := 2 ^ 40; hole_size := 2 ^ 30; hole_ty := 2 |}].
(** A header whose [offset] is 16 (empty padding) and a memory-map record
    (group 9, type 9) with one hole. *)
Definition memmap_payload : list Z := mem_map_bytes 65536 1 (firstn 1 sample_holes).
Definition blob_memmap : list Z :=
  sample_header 16 ++ sample_record 9 9 88 memmap_payload.
Definition memmap_item : Entry :=
  {| offset := 16;
     entry := Item_Entry {| group := 9; ty := 9; inst := 0; size := 88;
                            hmac := zeros 32 |};
     data := memmap_payload |}.
Definition memmap_app : App := get_ok empty_app (app_new (parsed_items blob_memmap)).
Definition sample_tfis : list PmuTfiEntry :=
  map (fun k => {| bits := Z.of_nat k; error := 5; tfi_data := [1; 2; 3; 4] |})
      (seq 0 40).

#[global] Instance event_in_range_dec (v : MilanApobEvent) :
  Decision (event_in_range v).
Proof. unfold event_in_range. apply _. Defined.
#[global] Instance hole_in_range_dec (h : ApobSysMemMapHole) :
  Decision (hole_in_range h).
Proof. unfold hole_in_range. apply _. Defined.
#[global] Instance tfi_in_range_dec (t : PmuTfiEntry) :
  Decision (tfi_in_range t).
Proof. unfold tfi_in_range. apply _. Defined.

(* ================================================================== *)
(** * Proofs *)

Example parse_sample :
  match parse (sample_header 64 ++ zeros 48
               ++ sample_record 1 22 52 [1; 2; 3; 4]) with
  | Ok (_, its) => map offset its = [0; 16; 64]%nat
                   /\ map (fun it => length (data it)) its = [16; 48; 4]%nat
  | Err _ => False
  end.
Proof. vm_compute. split; reflexivity. Qed.

(** ** Byte-level lemmas *)

Lemma le_encode_decode (l : list Z) :
  Forall is_byte l -> le_encode (length l) (le_decode l) = l.
Proof.
  induction 1 as [|b l Hb _ IH]; [reflexivity|].
  unfold is_byte in Hb. cbn [length le_encode le_decode].
  replace ((b + 256 * le_decode l) mod 256) with b.
  2:{ rewrite Z.mul_comm, Z_mod_plus_full. rewrite Z.mod_small; lia. }
  replace ((b + 256 * le_decode l) / 256) with (le_decode l).
  2:{ rewrite Z.mul_comm, Z_div_plus_full by lia.
      rewrite Z.div_small by lia. lia. }
  now rewrite IH.
Qed.

Lemma le_encode_length (n : nat) (v : Z) : length (le_encode n v) = n.
Proof. revert v; induction n; intros v; simpl; auto. Qed.

Lemma read_u32_encode (bs : list Z) (off : nat) :
  Forall is_byte bs -> (off + 4 <= length bs)%nat ->
  le_encode 4 (read_u32 bs off) = take 4 (drop off bs).
Proof.
  intros Hb Hl. unfold read_u32.
  assert (Hlen : length (take 4 (drop off bs)) = 4%nat).
  { rewrite length_take_le; [done|]. rewrite length_drop. lia. }
  rewrite <- Hlen at 1. apply le_encode_decode.
  apply Forall_take, Forall_drop, Hb.
Qed.

(** The 48 bytes a record header was read from are its memory image. *)
Lemma entry_bytes_of_bytes (bs : list Z) :
  Forall is_byte bs -> (entry_header_size <= length bs)%nat ->
  entry_bytes (entry_of_bytes bs) = take entry_header_size bs.
Proof.
  unfold entry_header_size. intros Hb Hl.
  unfold entry_bytes, entry_of_bytes; cbn [group ty inst size hmac].
  rewrite !read_u32_encode by (done || lia).
  change (take 48 bs) with (take (4 + 44) bs).
  rewrite <- take_take_drop. f_equal.
  change (take 44 (drop 4 bs)) with (take (4 + 40) (drop 4 bs)).
  rewrite <- take_take_drop, drop_drop. f_equal.
  change (take 40 (drop (4 + 4) bs)) with (take (4 + 36) (drop 8 bs)).
  rewrite <- take_take_drop, drop_drop. f_equal.
  change (take 36 (drop (8 + 4) bs)) with (take (4 + 32) (drop 12 bs)).
  rewrite <- take_take_drop, drop_drop. reflexivity.
Qed.

(** ** The container walk *)

Lemma slice_ok (s : list Z) (a b : nat) (r : list Z) :
  slice s a b = Ok r -> (a <= b <= length s)%nat /\ r = take (b - a) (drop a s).
Proof.
  unfold slice. destruct (_ && _) eqn:E; [|discriminate].
  apply andb_prop in E as [E1 E2]. apply Nat.leb_le in E1, E2.
  intros H; inversion H; auto.
Qed.

Lemma entry_ref_from_prefix_some (bytes : list Z) (pos : nat) (e : ApobEntry) :
  entry_ref_from_prefix bytes pos = Some e ->
  Nat.modulo pos 4 = 0%nat /\ (pos + entry_header_size <= length bytes)%nat
  /\ e = entry_of_bytes (drop pos bytes).
Proof.
  unfold entry_ref_from_prefix. destruct (_ && _) eqn:E; [|discriminate].
  apply andb_prop in E as [E1 E2]. apply Nat.eqb_eq in E1.
  apply Nat.leb_le in E2. rewrite length_drop in E2.
  unfold entry_header_size in *. intros H; inversion H; split; [done | split; [lia | done]].
Qed.

(** One successful loop iteration: the record at [pos] spans exactly
    [size] bytes, its 48-byte header followed by its payload. *)
Lemma entries_loop_step (fuel : nat) (bytes : list Z) (pos : nat)
    (its : list Entry) :
  entries_loop (S fuel) bytes pos = Ok its ->
  (pos < length bytes)%nat ->
  exists e edata rest,
    entry_ref_from_prefix bytes pos = Some e
    /\ (entry_header_size <= Z.to_nat (size e) <= length bytes - pos)%nat
    /\ edata = take (Z.to_nat (size e) - entry_header_size)
                    (drop (pos + entry_header_size) bytes)
    /\ entries_loop fuel bytes (pos + Z.to_nat (size e)) = Ok rest
    /\ its = {| offset := pos; entry := Item_Entry e; data := edata |} :: rest.
Proof.
  intros H Hlt. cbn [entries_loop] in H.
  replace (pos <? length bytes)%nat with true in H
    by (symmetry; apply Nat.ltb_lt; done).
  destruct (entry_ref_from_prefix bytes pos) as [e|] eqn:He; [|discriminate].
  cbn in H.
  destruct (slice (drop pos bytes) 0 (Z.to_nat (size e))) as [sized|p]
    eqn:Hs1; [|discriminate].
  cbn in H.
  destruct (slice sized entry_header_size (length sized)) as [edata|p]
    eqn:Hs2; [|discriminate].
  cbn in H.
  destruct (entries_loop fuel bytes (pos + Z.to_nat (size e))) as [rest|p]
    eqn:Hr; [|discriminate].
  cbn in H. inversion H; subst its.
  apply slice_ok in Hs1 as [Hb1 ->]. apply slice_ok in Hs2 as [Hb2 ->].
  rewrite length_drop in Hb1.
  rewrite Nat.sub_0_r, drop_0 in Hb2 |- *.
  rewrite length_take, length_drop in Hb2.
  exists e, (take (length (take (Z.to_nat (size e)) (drop pos bytes))
                   - entry_header_size)
              (drop entry_header_size (take (Z.to_nat (size e))
                                          (drop pos bytes)))), rest.
  split; [done|]. split; [lia|]. split; [|done].
  rewrite length_take, length_drop.
  replace (Init.Nat.min (Z.to_nat (size e)) (length bytes - pos))
    with (Z.to_nat (size e)) by lia.
  replace (Z.to_nat (size e)) with
    (entry_header_size + (Z.to_nat (size e) - entry_header_size))%nat at 2
    by lia.
  rewrite <- take_drop_commute, take_take, Nat.min_id, drop_drop.
  reflexivity.
Qed.

Lemma entries_loop_done (fuel : nat) (bytes : list Z) (pos : nat) :
  (length bytes <= pos)%nat -> entries_loop fuel bytes pos = Ok [].
Proof.
  intros H. destruct fuel; cbn [entries_loop];
    replace (pos <? length bytes)%nat with false
      by (symmetry; apply Nat.ltb_ge; done); reflexivity.
Qed.

(** A successful walk from [pos] tiles [pos, len) with records, and the
    records' memory images concatenate to the rest of the buffer. *)
Lemma entries_loop_ok (fuel : nat) (bytes : list Z) (pos : nat)
    (its : list Entry) :
  Forall is_byte bytes -> (pos <= length bytes)%nat ->
  entries_loop fuel bytes pos = Ok its ->
  tile pos its (length bytes)
  /\ concat (map item_bytes its) = drop pos bytes
  /\ Forall (fun it => (entry_header_size <= item_len it)%nat
                       /\ exists e, entry it = Item_Entry e) its.
Proof.
  intros Hb. revert pos its.
  induction fuel as [|fuel IH]; intros pos its Hle H;
    (destruct (decide (pos < length bytes)%nat) as [Hlt|Hge];
     [|rewrite entries_loop_done in H by lia; inversion H; subst; cbn;
       rewrite drop_ge by lia; repeat split; [lia|constructor]]).
  - cbn [entries_loop] in H. replace (pos <? length bytes)%nat with true in H
      by (symmetry; apply Nat.ltb_lt; done). discriminate.
  - apply entries_loop_step in H as (e & edata & rest & He & Hsz & -> & Hr & ->);
      [|done].
    apply entry_ref_from_prefix_some in He as (_ & Hhd & ->).
    edestruct IH as (Ht & Hc & Hf); [|exact Hr|]; [lia|].
    assert (Hib : item_bytes {| offset := pos;
                               entry := Item_Entry (entry_of_bytes (drop pos bytes));
                               data := take (Z.to_nat (size (entry_of_bytes (drop pos bytes)))
                                             - entry_header_size)
                                         (drop (pos + entry_header_size) bytes) |}
                  = take (Z.to_nat (size (entry_of_bytes (drop pos bytes))))
                         (drop pos bytes)).
    { unfold item_bytes; cbn [entry data].
      rewrite entry_bytes_of_bytes
        by (apply Forall_drop, Hb || (rewrite length_drop; lia)).
      rewrite <- drop_drop.
      rewrite take_take_drop. f_equal. lia. }
    set (sz := Z.to_nat (size (entry_of_bytes (drop pos bytes)))) in *.
    assert (Hil : item_len {| offset := pos;
                              entry := Item_Entry (entry_of_bytes (drop pos bytes));
                              data := take (sz - entry_header_size)
                                        (drop (pos + entry_header_size) bytes) |}
                  = sz).
    { unfold item_len. rewrite Hib, length_take, length_drop. lia. }
    split; [|split].
    + cbn [tile offset]. split; [done|]. rewrite Hil. exact Ht.
    + cbn [map concat]. rewrite Hib, Hc, <- drop_drop, take_drop. reflexivity.
    + constructor; [|exact Hf]. rewrite Hil. split; [lia|eauto].
Qed.

Lemma tile_sorted (a b : nat) (its : list Entry) :
  tile a its b -> Sorted le (map offset its) /\ Forall (fun it => a <= offset it)%nat its.
Proof.
  revert a. induction its as [|it its IH]; intros a Ht; cbn in Ht |- *.
  - split; constructor.
  - destruct Ht as [Ho Ht]. destruct (IH _ Ht) as [Hs Hf].
    split.
    + constructor; [exact Hs|]. destruct its as [|it' its']; cbn; constructor.
      inversion Hf; subst. lia.
    + constructor; [lia|]. eapply Forall_impl; [exact Hf|]. cbn. lia.
Qed.

(** ** C1: the items of a successful parse tile the blob *)

(** C1 (amended).  When [parse] succeeds on a byte buffer, the items it
    returns (header, padding, records in file order) tile [0, len) with
    no gap and no overlap, each starting where the previous one ends;
    their offsets are non-decreasing, and every item except the padding
    item is non-empty (so offsets strictly increase except that an empty
    padding item shares its offset with the next item); concatenating
    the header item's data (already the 16 header bytes), the padding
    data, and for each record its 48 header bytes followed by its payload
    gives back the buffer. *)
Theorem parse_items_tile_blob (bytes : list Z) (h : ApobHeader)
    (its : list Entry) :
  Forall is_byte bytes ->
  parse bytes = Ok (h, its) ->
  tile 0 its (length bytes)
  /\ concat (map item_bytes its) = bytes
  /\ Sorted le (map offset its)
  /\ Forall (fun it => entry it <> Item_Padding -> (0 < item_len it)%nat) its.
Proof.
  intros Hb H. unfold parse in H.
  destruct (header_ref_from_prefix bytes) as [hd|] eqn:Hh; [|discriminate].
  cbn [bind unwrap] in H. unfold header_ref_from_prefix in Hh.
  destruct (header_size <=? length bytes)%nat eqn:Hl; [|discriminate].
  apply Nat.leb_le in Hl. inversion Hh; subst hd; clear Hh.
  destruct (decide _) as [_|]; [|discriminate]. cbn [bind unwrap] in H.
  destruct (decide _) as [_|]; [|discriminate]. cbn [bind unwrap] in H.
  destruct (slice bytes 0 header_size) as [hdata|] eqn:H1; [|discriminate].
  cbn [bind unwrap] in H.
  destruct (slice bytes header_size _) as [pdata|] eqn:H2; [|discriminate].
  cbn [bind unwrap] in H.
  destruct (entries_loop _ _ _) as [rest|] eqn:H3; [|discriminate].
  cbn [bind unwrap] in H. inversion H; subst h its; clear H.
  apply slice_ok in H1 as [_ ->]. apply slice_ok in H2 as [Hoff ->].
  set (off := Z.to_nat (hoffset (header_of_bytes bytes))) in *.
  edestruct entries_loop_ok as (Ht & Hc & Hf); [exact Hb| |exact H3|];
    [lia|].
  unfold header_size in *.
  assert (Ht' : tile 0
    ({| offset := 0; entry := Item_Header (header_of_bytes bytes);
        data := take (16 - 0) (drop 0 bytes) |}
     :: {| offset := 16; entry := Item_Padding;
           data := take (off - 16) (drop 16 bytes) |} :: rest)
    (length bytes)).
  { cbn [tile offset]. split; [done|]. split.
    - unfold item_len, item_bytes; cbn [entry data].
      rewrite length_take, length_drop. lia.
    - unfold item_len, item_bytes; cbn [entry data].
      rewrite !length_take, !length_drop.
      replace (0 + Init.Nat.min (16 - 0) (length bytes - 0)
               + Init.Nat.min (off - 16) (length bytes - 16))%nat
        with off by lia. exact Ht. }
  split; [exact Ht'|]. split; [|split].
  - cbn [map concat]. unfold item_bytes; cbn [entry data].
    fold item_bytes. rewrite Hc, drop_0, Nat.sub_0_r, app_assoc.
    rewrite take_take_drop.
    replace (16 + (off - 16))%nat with off by lia. apply take_drop.
  - apply (tile_sorted _ _ _ Ht').
  - constructor; [|constructor].
    + intros _. unfold item_len, item_bytes; cbn [entry data].
      rewrite length_take, length_drop. lia.
    + intros []. reflexivity.
    + eapply Forall_impl; [exact Hf|]. intros it [Hl' _] _.
      unfold entry_header_size in Hl'. lia.
Qed.

(** C1 (counterexample).  On [blob_empty_padding] the parse succeeds with
    items at offsets 0, 16, 16 (the empty padding and the record share an
    offset), so the offsets are not strictly increasing; and adding the 16
    header bytes to the header item's data, which already holds them,
    does not give back the blob. *)
Lemma parse_offsets_not_strict :
  match parse blob_empty_padding with
  | Ok (_, its) =>
      map offset its = [0; 16; 16]%nat
      /\ ~ Sorted lt (map offset its)
      /\ concat (map spec_item_bytes its) <> blob_empty_padding
  | Err _ => False
  end.
Proof.
  vm_compute. split; [reflexivity|]. split.
  - intros Hs. inversion Hs as [|x l Hs' Hhd]; subst.
    inversion Hs' as [|y l' _ Hhd']; subst.
    inversion Hhd'; lia.
  - intros Heq. apply (f_equal length) in Heq. vm_compute in Heq.
    discriminate.
Qed.

(** ** C2: a record overrunning the buffer aborts the parse *)

Lemma slice_in_range (s : list Z) (a b : nat) :
  (a <= b <= length s)%nat -> slice s a b = Ok (take (b - a) (drop a s)).
Proof.
  intros H. unfold slice.
  replace ((a <=? b)%nat && (b <=? length s)%nat) with true; [done|].
  symmetry. apply andb_true_intro. split; apply Nat.leb_le; lia.
Qed.

Lemma slice_out_of_range (s : list Z) (a b : nat) :
  (length s < b)%nat -> slice s a b = Err SliceOutOfRange.
Proof.
  intros H. unfold slice.
  replace ((a <=? b)%nat && (b <=? length s)%nat) with false; [done|].
  symmetry. apply andb_false_intro2. apply Nat.leb_gt. lia.
Qed.

Lemma entries_loop_unfold (fuel : nat) (bytes : list Z) (pos : nat) :
  (pos < length bytes)%nat ->
  entries_loop (S fuel) bytes pos =
    (e <- unwrap EntryPrefix (entry_ref_from_prefix bytes pos) ;;
     sized <- slice (drop pos bytes) 0 (Z.to_nat (size e)) ;;
     edata <- slice sized entry_header_size (length sized) ;;
     rest <- entries_loop fuel bytes (pos + Z.to_nat (size e)) ;;
     Ok ({| offset := pos; entry := Item_Entry e; data := edata |} :: rest)).
Proof.
  intros H. cbn [entries_loop].
  replace (pos <? length bytes)%nat with true
    by (symmetry; apply Nat.ltb_lt; done).
  reflexivity.
Qed.

Lemma read_u32_drop (bytes : list Z) (q off : nat) :
  read_u32 (drop q bytes) off = read_u32 bytes (q + off).
Proof. unfold read_u32. rewrite drop_drop. reflexivity. Qed.

(** The walk fails at the first record that overruns the buffer. *)
Lemma entries_loop_overrun (bytes : list Z) (p q : nat) :
  reaches bytes p q ->
  (q < length bytes)%nat ->
  (length bytes - q < Z.to_nat (read_u32 bytes (q + 12)))%nat ->
  forall fuel, (length bytes - p < fuel)%nat ->
  entries_loop fuel bytes p =
    Err (match entry_ref_from_prefix bytes q with
         | Some _ => SliceOutOfRange
         | None => EntryPrefix
         end).
Proof.
  intros Hr Hq Hsz. induction Hr as [p|p q e Hp He Hs _ IH];
    intros [|fuel] Hf; try lia.
  - rewrite entries_loop_unfold by done.
    destruct (entry_ref_from_prefix bytes p) as [e|] eqn:He; [|reflexivity].
    cbn [bind unwrap].
    pose proof (entry_ref_from_prefix_some _ _ _ He) as (_ & _ & ->).
    cbn [size entry_of_bytes]. rewrite read_u32_drop.
    rewrite slice_out_of_range; [reflexivity|]. rewrite length_drop. lia.
  - rewrite entries_loop_unfold by done. rewrite He. cbn [bind unwrap].
    rewrite slice_in_range by (rewrite length_drop; lia).
    cbn [bind]. rewrite Nat.sub_0_r, drop_0.
    rewrite slice_in_range
      by (rewrite length_take, length_drop; lia).
    cbn [bind]. unfold entry_header_size in Hs. rewrite IH by lia. reflexivity.
Qed.

(** C2 (amended).  Let the header be valid and the record walk from the
    header's offset reach a position [q] inside the buffer whose size
    field exceeds the bytes remaining from [q].  Then [parse] returns no
    item list at all: it fails, at the out-of-range slice
    [data[pos..][..entry.size]] (the code's overrun check) when the
    48-byte record header at [q] is readable, and at the record-header
    cast otherwise. *)
Theorem parse_record_overrun (bytes : list Z) (q : nat) :
  (header_size <= length bytes)%nat ->
  sig (header_of_bytes bytes) = APOB_SIG ->
  version (header_of_bytes bytes) = APOB_VERSION ->
  (header_size <= Z.to_nat (hoffset (header_of_bytes bytes))
               <= length bytes)%nat ->
  reaches bytes (Z.to_nat (hoffset (header_of_bytes bytes))) q ->
  (q < length bytes)%nat ->
  (length bytes - q < Z.to_nat (read_u32 bytes (q + 12)))%nat ->
  parse bytes =
    Err (match entry_ref_from_prefix bytes q with
         | Some _ => SliceOutOfRange
         | None => EntryPrefix
         end).
Proof.
  intros Hl Hs Hv Ho Hr Hq Hsz. unfold parse.
  unfold header_ref_from_prefix.
  replace (header_size <=? length bytes)%nat with true
    by (symmetry; apply Nat.leb_le; done).
  cbn [bind unwrap].
  destruct (decide _) as [_|]; [|contradiction]. cbn [bind].
  destruct (decide _) as [_|]; [|contradiction]. cbn [bind].
  rewrite slice_in_range by (unfold header_size in *; lia). cbn [bind].
  rewrite slice_in_range by lia. cbn [bind].
  erewrite entries_loop_overrun; [reflexivity|exact Hr|exact Hq|exact Hsz|lia].
Qed.

(** C2 (counterexample).  In [blob_short_record] the record at offset 16
    declares size 100 while 20 bytes remain, yet the parse fails at the
    record-header cast ([EntryPrefix]), not at the overrun check. *)
Lemma parse_short_record_not_overrun :
  (length blob_short_record - 16
     < Z.to_nat (read_u32 blob_short_record (16 + 12)))%nat
  /\ parse blob_short_record = Err EntryPrefix
  /\ parse blob_short_record <> Err SliceOutOfRange.
Proof. vm_compute. split; [lia|]. split; [reflexivity|discriminate]. Qed.

(** Witness of C2: [blob_overrun], whose only record declares 100 bytes
    where 48 remain, fails at the overrun check. *)
Lemma parse_record_overrun_witness :
  parse blob_overrun = Err SliceOutOfRange.
Proof.
  apply (parse_record_overrun blob_overrun 16);
    try (vm_compute; reflexivity); try (vm_compute; lia).
  apply reaches_here.
Defined.

(** Witness of C1: the sample blob of the spec. *)
Lemma parse_items_tile_blob_witness :
  Forall is_byte blob_sample
  /\ parse blob_sample = Ok (parsed_header blob_sample, parsed_items blob_sample)
  /\ tile 0 (parsed_items blob_sample) (length blob_sample)
  /\ concat (map item_bytes (parsed_items blob_sample)) = blob_sample.
Proof.
  assert (Hb : Forall is_byte blob_sample)
    by (apply (bool_decide_unpack _); vm_compute; reflexivity).
  assert (Hp : parse blob_sample
               = Ok (parsed_header blob_sample, parsed_items blob_sample))
    by (vm_compute; reflexivity).
  destruct (parse_items_tile_blob _ _ _ Hb Hp) as (Ht & Hc & _).
  split; [exact Hb|]. split; [exact Hp|]. split; [exact Ht|exact Hc].
Defined.

(** ** C5, C6: cancellation bits and group masking *)

Lemma land_cancelled_shift (g : Z) :
  0 <= g < 2 ^ 32 ->
  Z.land g APOB_CANCELLED = Z.shiftl (Z.shiftr g 16) 16.
Proof.
  intros Hg.
  replace APOB_CANCELLED with (Z.ldiff (Z.ones 32) (Z.ones 16))
    by (vm_compute; reflexivity).
  apply Z.bits_inj'. intros n Hn.
  rewrite Z.land_spec, Z.ldiff_spec, !Z.testbit_ones by lia.
  destruct (Z.lt_ge_cases n 16) as [Hlo|Hhi].
  - rewrite Z.shiftl_spec_low by lia.
    replace (n <? 16) with true by (symmetry; apply Z.ltb_lt; lia).
    replace (0 <=? n) with true by (symmetry; apply Z.leb_le; lia).
    destruct (Z.testbit g n), (n <? 32); reflexivity.
  - rewrite Z.shiftl_spec_high by lia. rewrite Z.shiftr_spec by lia.
    replace (n - 16 + 16) with n by lia.
    replace (n <? 16) with false by (symmetry; apply Z.ltb_ge; lia).
    replace (0 <=? n) with true by (symmetry; apply Z.leb_le; lia).
    destruct (Z.lt_ge_cases n 32) as [H32|H32].
    + replace (n <? 32) with true by (symmetry; apply Z.ltb_lt; lia).
      rewrite andb_true_r. reflexivity.
    + replace (n <? 32) with false by (symmetry; apply Z.ltb_ge; lia).
      rewrite andb_false_r.
      rewrite <- (Z.mod_small g (2 ^ 32)) by lia.
      rewrite Z.mod_pow2_bits_high by lia. reflexivity.
Qed.

Lemma group_mask_low16 (g : Z) :
  Z.land g (u32_not APOB_CANCELLED) = Z.land g (Z.ones 16).
Proof. f_equal. Qed.

(** C5.  For a record whose [group] is a [u32], [cancelled] holds iff the
    high 16 bits of [group] are [0xFFFF]; [group_of] depends only on the
    low 16 bits of [group]: it is unchanged when the high half is
    cleared, and any two groups with the same low half classify alike. *)
Theorem cancelled_iff_high_half (e : ApobEntry) :
  0 <= group e < 2 ^ 32 ->
  (cancelled e = true <-> Z.shiftr (group e) 16 = 65535)
  /\ group_of e = group_of (with_group e (Z.land (group e) (Z.ones 16)))
  /\ (forall g', Z.land g' (Z.ones 16) = Z.land (group e) (Z.ones 16) ->
                 group_of (with_group e g') = group_of e).
Proof.
  intros Hg. split; [|split].
  - unfold cancelled. rewrite Z.eqb_eq, land_cancelled_shift by exact Hg.
    change APOB_CANCELLED with (Z.shiftl 65535 16).
    rewrite !Z.shiftl_mul_pow2 by lia. lia.
  - unfold group_of, with_group; cbn [group]. rewrite !group_mask_low16.
    rewrite <- Z.land_assoc, Z.land_diag. reflexivity.
  - intros g' Hg'. unfold group_of, with_group; cbn [group].
    rewrite !group_mask_low16, Hg'. reflexivity.
Qed.

(** Witness of C5: group [0xFFFF_0001] (cancelled memory group). *)
Lemma cancelled_iff_high_half_witness :
  0 <= group (sample_entry 4294901761) < 2 ^ 32
  /\ (cancelled (sample_entry 4294901761) = true
      <-> Z.shiftr (group (sample_entry 4294901761)) 16 = 65535).
Proof.
  assert (H : 0 <= group (sample_entry 4294901761) < 2 ^ 32)
    by (unfold sample_entry; cbn [group]; lia).
  split; [exact H|]. apply (proj1 (cancelled_iff_high_half _ H)).
Defined.

(** C6 (counterexample).  For [group = 0x0001_FFFF] the high half is
    [0x0001], so [cancelled] is false, and the masked value [0xFFFF] is no
    known group: [group_of] is [None], not [MEMORY]. *)
Lemma group_0001ffff_not_cancelled :
  cancelled (sample_entry 131071) = false
  /\ group_of (sample_entry 131071) = None.
Proof. vm_compute. split; reflexivity. Qed.

(** C6 (amended).  [group = 0x0001_FFFF] is not cancelled and resolves to
    no group; it is [group = 0xFFFF_0001] that is cancelled and still
    resolves to the memory group (id 1) after masking. *)
Theorem group_cancel_examples :
  cancelled (sample_entry 131071) = false
  /\ group_of (sample_entry 131071) = None
  /\ cancelled (sample_entry 4294901761) = true
  /\ group_of (sample_entry 4294901761) = Some MEMORY.
Proof. vm_compute. repeat split. Qed.

(** ** C10: the PMU training-failure bit fields *)

Lemma extract_field (w lo width : Z) :
  0 <= lo -> 0 <= width ->
  bit_field (Z.land (Z.shiftr w lo) (Z.ones width)) w lo width.
Proof.
  intros Hlo Hw. unfold bit_field.
  rewrite Z.land_ones, Z.shiftr_div_pow2 by lia.
  split; [reflexivity|]. split.
  - apply Z.mod_pos_bound. apply Z.pow_pos_nonneg; lia.
  - intros n Hn. rewrite <- Z.shiftr_div_pow2 by lia.
    rewrite <- Z.land_ones by lia.
    rewrite Z.land_spec, Z.testbit_ones, Z.shiftr_spec by lia.
    replace (0 <=? n) with true by (symmetry; apply Z.leb_le; lia).
    apply andb_comm.
Qed.

(** C10.  For every word [w], [sock] is bit 0, [umc] bits 1-3,
    [dimension] bit 4, [num_1d] bits 5-7 and [stage] bits 15-30 of [w]:
    each is [(w >> lo) mod 2^width], lies in [0, 2^width), and its bit [n]
    is bit [n + lo] of [w] for [n < width] and 0 above. *)
Theorem pmu_bitfield_extraction (w : Z) :
  bit_field (pmu_sock w) w 0 1
  /\ bit_field (pmu_umc w) w 1 3
  /\ bit_field (pmu_dimension w) w 4 1
  /\ bit_field (pmu_num_1d w) w 5 3
  /\ bit_field (pmu_stage w) w 15 16.
Proof.
  split; [|split; [|split; [|split]]].
  - unfold pmu_sock. rewrite <- (Z.shiftr_0_r w) at 1.
    apply (extract_field w 0 1); lia.
  - apply (extract_field w 1 3); lia.
  - apply (extract_field w 4 1); lia.
  - apply (extract_field w 5 3); lia.
  - apply (extract_field w 15 16); lia.
Qed.

(** ** C3: specialized decoders on a short payload *)

Lemma specialized_entry_tag (e : ApobEntry) (t : SpecializedTag) :
  specialized (Item_Entry e) = Some t ->
  (t = Tag_EventLog /\ group_of e = Some GENERAL /\ ty e = 6)
  \/ (t = Tag_MemMap /\ group_of e = Some FABRIC /\ ty e = 9)
  \/ (t = Tag_PmuTrainingFailure /\ group_of e = Some MEMORY /\ ty e = 22).
Proof.
  cbn [specialized].
  destruct (group_of e) as [[]|]; try (intros H; discriminate H).
  - destruct (Z.eqb_spec (ty e) 22); intros H; inversion H; subst; tauto.
  - destruct (Z.eqb_spec (ty e) 6); intros H; inversion H; subst; tauto.
  - destruct (Z.eqb_spec (ty e) 9); intros H; inversion H; subst; tauto.
Qed.

(** C3 (amended).  For a record item whose (group, type) selects the
    event-log, memory-map or PMU training-failure view and whose payload
    is shorter than that view's fixed structure, the decoder's zerocopy
    cast fails and is unwrapped: [render_specialized] panics, so drawing
    any state that selects the item panics, and so does [decode_item] of
    the flat dump.  No [Truncated] value is returned and no fallback view
    is drawn. *)
Theorem short_payload_panics (it : Entry) (e : ApobEntry) (t : SpecializedTag) :
  entry it = Item_Entry e ->
  specialized (entry it) = Some t ->
  (length (data it) < fixed_size t)%nat ->
  specialized_view it t = Err CastFailed
  /\ decode_item e (data it) = Err CastFailed
  /\ (forall (s : App) (i : N), item_sel s = Some i -> item_at s i = Ok it ->
        draw_specialized s = Err CastFailed).
Proof.
  intros He Ht Hl.
  assert (Hv : specialized_view it t = Err CastFailed).
  { rewrite He in Ht.
    destruct (specialized_entry_tag _ _ Ht) as [(-> & _ & _)|[(-> & _ & _)|(-> & _ & _)]];
      cbn [fixed_size] in Hl; unfold specialized_view, result_map;
      [unfold decode_event_log | unfold decode_sys_mem_map | unfold decode_pmu_tfi];
      (replace (_ <=? length (data it))%nat with false
         by (symmetry; apply Nat.leb_gt; exact Hl)); reflexivity. }
  split; [exact Hv|]. split.
  - rewrite He in Ht.
    destruct (specialized_entry_tag _ _ Ht)
      as [(-> & Hg & Hty)|[(-> & Hg & Hty)|(-> & Hg & Hty)]];
      cbn [fixed_size] in Hl; unfold decode_item; rewrite Hg, Hty; cbn [Z.eqb];
      unfold result_map;
      [unfold decode_event_log | unfold decode_sys_mem_map | unfold decode_pmu_tfi];
      (replace (_ <=? length (data it))%nat with false
         by (symmetry; apply Nat.leb_gt; exact Hl)); reflexivity.
  - intros s i Hi Hit. unfold draw_specialized. rewrite Hi, Hit.
    cbn [bind]. rewrite Ht, Hv. reflexivity.
Qed.

(** Witness of C3. *)
Lemma short_payload_panics_witness :
  specialized_view sample_pmu_item Tag_PmuTrainingFailure = Err CastFailed.
Proof.
  apply (short_payload_panics sample_pmu_item (sample_entry 1)
           Tag_PmuTrainingFailure);
    [reflexivity | vm_compute; reflexivity | vm_compute; lia].
Defined.

(** C3 (counterexample).  Loading the spec's example blob, selecting its
    PMU training-failure record (4-byte payload) and drawing panics: the
    program fails instead of getting a [Truncated] result, and the item's
    raw payload is not shown either. *)
Lemma select_short_pmu_record_panics :
  (s <- app_new (parsed_items blob_sample) ;;
   s1 <- set_item_scroll 2 s ;;
   draw_state geometry_130x25 s1) = Err CastFailed
  /\ (match entry sample_pmu_item with
      | Item_Entry e => decode_item e (data sample_pmu_item)
      | _ => Ok None
      end) = Err CastFailed.
Proof. vm_compute. split; reflexivity. Qed.

(** ** C4: the browser operations on an empty payload *)

(** C4 (code bug).  Load [blob_empty_padding] (its padding item and its
    record's payload are empty) in an 80x3 terminal, where the payload
    pane is at most 2 rows high, so its bordered table has no inner row
    and ratatui's [Table] render leaves the selection alone.  Press Down
    in the item list (selects the empty padding item, so
    [data_scroll_max] becomes 0 and the payload row 0), Right (focus the
    payload pane) and Down: [next_data_row(1)] evaluates
    [self.data_scroll_max - 1] with [data_scroll_max = 0], a usize
    underflow, and the viewer panics.  In an 80x25 terminal the draw
    clears the selection of the empty payload table and the same keys do
    not panic. *)
Lemma next_data_row_empty_payload_panics :
  (s <- app_new (parsed_items blob_empty_padding) ;;
   run_loop (draw_state geometry_80x3) 0
     [(true, EvKey KDown true); (true, EvKey KRight true);
      (true, EvKey KDown true)] s 1) = Err UsizeOverflow
  /\ exists r,
     (s <- app_new (parsed_items blob_empty_padding) ;;
      run_loop (draw_state geometry_80x25) 0
        [(true, EvKey KDown true); (true, EvKey KRight true);
         (true, EvKey KDown true)] s 1) = Ok r.
Proof. split; [vm_compute; reflexivity | eexists; vm_compute; reflexivity]. Qed.

(** ** C8: the per-item scroll row survives a visit elsewhere *)

Lemma set_item_scroll_ok (i : N) (s s' : App) :
  set_item_scroll i s = Ok s' ->
  item_sel s' = Some i
  /\ data_sel s' = Some (default 0%N (data_scroll_cache s !! i))
  /\ data_scroll_cache s' = data_scroll_cache s
  /\ items s' = items s /\ data_width s' = data_width s.
Proof.
  unfold set_item_scroll, item_at.
  destruct (items _ !! _) as [it|]; cbn [bind unwrap]; [|discriminate].
  destruct (div_ceil _ _) as [mx|]; cbn [bind]; [|discriminate].
  intros H; inversion H; subst; cbn. repeat split.
Qed.

Lemma data_op_ok (o : DataOp) (i : N) (s s' : App) :
  item_sel s = Some i -> data_op o s = Ok s' ->
  item_sel s' = Some i
  /\ data_sel s' = Some (default 0%N (data_scroll_cache s' !! i))
  /\ items s' = items s.
Proof.
  intros Hi. assert (Hset : forall r, set_data_scroll r s = s' ->
    item_sel s' = Some i
    /\ data_sel s' = Some (default 0%N (data_scroll_cache s' !! i))
    /\ items s' = items s).
  { intros r <-. unfold set_data_scroll. rewrite Hi. cbn.
    rewrite lookup_insert_eq. repeat split; assumption. }
  destruct o as [d|d|r]; cbn [data_op].
  - unfold next_data_row.
    destruct (match data_sel s with Some _ => _ | None => _ end) as [r|];
      cbn [bind]; [|intros H; discriminate H].
    intros H; inversion H; subst; exact (Hset _ eq_refl).
  - unfold prev_data_row. intros H; inversion H; subst; exact (Hset _ eq_refl).
  - intros H; inversion H; subst; exact (Hset _ eq_refl).
Qed.

Lemma run_data_ops_ok (ops : list DataOp) (i : N) (s s' : App) :
  item_sel s = Some i
  -> data_sel s = Some (default 0%N (data_scroll_cache s !! i))
  -> run_data_ops ops s = Ok s'
  -> item_sel s' = Some i
     /\ data_sel s' = Some (default 0%N (data_scroll_cache s' !! i)).
Proof.
  revert s. induction ops as [|o ops IH]; intros s Hi Hd H; cbn in H.
  - inversion H; subst; auto.
  - destruct (data_op o s) as [s1|] eqn:Ho; cbn [bind] in H; [|discriminate].
    destruct (data_op_ok _ _ _ _ Hi Ho) as (Hi1 & Hd1 & _).
    exact (IH _ Hi1 Hd1 H).
Qed.

(** C8.  Select item [i] (its row is the remembered one, 0 if it was
    never scrolled), run any sequence of data-scroll operations, select
    [j], then select [i] again: the payload row is the one left at the
    end of the first visit. *)
Theorem reselect_restores_row (s s1 s2 s3 s4 : App) (i j : N)
    (ops : list DataOp) :
  set_item_scroll i s = Ok s1 ->
  run_data_ops ops s1 = Ok s2 ->
  set_item_scroll j s2 = Ok s3 ->
  set_item_scroll i s3 = Ok s4 ->
  data_sel s1 = Some (default 0%N (data_scroll_cache s !! i))
  /\ data_sel s4 = data_sel s2.
Proof.
  intros H1 H2 H3 H4.
  destruct (set_item_scroll_ok _ _ _ H1) as (Hi1 & Hd1 & Hc1 & _).
  split; [exact Hd1|].
  rewrite <- Hc1 in Hd1.
  destruct (run_data_ops_ok _ _ _ _ Hi1 Hd1 H2) as (_ & Hd2).
  destruct (set_item_scroll_ok _ _ _ H3) as (_ & _ & Hc3 & _).
  destruct (set_item_scroll_ok _ _ _ H4) as (_ & Hd4 & _).
  rewrite Hd4, Hc3, Hd2. reflexivity.
Qed.


(** Witness of C8: the 48-byte padding item of the sample blob, scrolled
    down 3 rows and up 1, then the header, then the padding again. *)
Lemma reselect_restores_row_witness :
  data_sel sample_s4 = data_sel sample_s2 /\ data_sel sample_s2 = Some 2%N.
Proof.
  split; [|vm_compute; reflexivity].
  apply (reselect_restores_row sample_app sample_s1 sample_s2 sample_s3
           sample_s4 1 0 [DNext 3; DPrev 1]);
    vm_compute; reflexivity.
Defined.

(** ** C7: rescaling the remembered rows *)

Lemma rescale_rows_ok (f : N -> result N) (g : N -> N) (l rows : list (N * N)) :
  (forall v r, f v = Ok r -> r = g v) ->
  rescale_rows f l = Ok rows -> rows = prod_map id g <$> l.
Proof.
  intros Hf. revert rows. induction l as [|[k v] l IH]; intros rows H;
    cbn in H.
  - inversion H; reflexivity.
  - destruct (f v) as [v'|] eqn:Hv; cbn [bind] in H; [|discriminate].
    destruct (rescale_rows f l) as [rest|]; cbn [bind] in H; [|discriminate].
    inversion H; subst. rewrite (Hf _ _ Hv), (IH rest eq_refl). reflexivity.
Qed.

Lemma rescale_ok (W w v r : N) :
  (index <- umul v W ;; udiv index w) = Ok r -> r = (v * W / w)%N.
Proof.
  unfold umul, udiv. destruct (v * W <=? USIZE_MAX)%N; cbn [bind];
    [|discriminate]. destruct (w =? 0)%N; [discriminate|].
  intros H; inversion H; reflexivity.
Qed.

(** C7 (amended).  [resize_data] runs whenever the hex row width (8 or
    16 bytes, chosen from the terminal width) differs from the current
    one.  Every cached row other than the selected item's becomes
    [old_row * old_width / new_width]; the active row is rescaled the
    same way and written back as the selected item's cached row.
    Changing the byte grouping (keys 1, 2, 4, 8) does not change the row
    width, so it leaves every remembered row and the active row as they
    were. *)
Theorem width_change_rescales_rows :
  (forall (w : N) (s s' : App),
     w <> data_width s -> resize_data w s = Ok s' ->
     data_width s' = w
     /\ (forall k, item_sel s <> Some k ->
           data_scroll_cache s' !! k
           = (fun r => r * data_width s / w)%N <$> data_scroll_cache s !! k)
     /\ (forall row, data_sel s = Some row ->
           data_sel s' = Some (row * data_width s / w)%N
           /\ forall j, item_sel s = Some j ->
                data_scroll_cache s' !! j = Some (row * data_width s / w)%N))
  /\ (forall (tbl : N) (ready : bool) (c : Ascii.ascii) (s : App) (m : N),
        In c ["1"; "2"; "4"; "8"]%char ->
        exists s', run_step tbl ready (EvKey (KChar c) true) s m
                   = Ok (Continue s' 1%N None)
        /\ data_scroll_cache s' = data_scroll_cache s
        /\ data_sel s' = data_sel s
        /\ data_width s' = data_width s
        /\ data_scroll_max s' = data_scroll_max s).
Proof.
  split.
  - intros w s s' Hw H. unfold resize_data in H.
    destruct (decide (w = data_width s)) as [|_]; [contradiction|].
    destruct (rescale_rows _ _) as [rows|] eqn:Hr; cbn [bind] in H;
      [|discriminate].
    apply (rescale_rows_ok _ (fun r => r * data_width s / w)%N) in Hr;
      [|intros v r; apply rescale_ok].
    rewrite Hr, list_to_map_fmap, list_to_map_to_list in H.
    destruct (data_sel s) as [row|] eqn:Hd; cbn [data_sel set_cache] in H;
      rewrite ?Hd in H.
    + destruct (umul row _) as [idx|] eqn:Hm; cbn [bind] in H; [|discriminate].
      destruct (udiv idx w) as [r|] eqn:Hdv; cbn [bind] in H; [|discriminate].
      assert (Hrr : r = (row * data_width s / w)%N).
      { apply (rescale_ok (data_width s) w row r).
        cbn [data_width set_cache] in Hm. rewrite Hm. exact Hdv. }
      subst r. inversion H; subst s'; clear H.
      unfold set_data_scroll; cbn.
      split; [reflexivity|]. split.
      * intros k Hk. destruct (item_sel s) as [j|] eqn:Hj; cbn.
        -- rewrite lookup_insert_ne by congruence. apply lookup_fmap.
        -- apply lookup_fmap.
      * intros row' Hrow'. inversion Hrow'; subst row'. split; [reflexivity|].
        intros j ->. cbn. apply lookup_insert_eq.
    + inversion H; subst s'; clear H. cbn.
      split; [reflexivity|]. split.
      * intros k _. apply lookup_fmap.
      * intros row Hrow. discriminate.
  - intros tbl ready c s m Hc.
    repeat destruct Hc as [<-|Hc]; [| | | |contradiction];
      eexists; (split; [reflexivity|]); cbn; repeat split.
Qed.

(** Witness of C7: the sample viewer scrolled to row 2 of the padding
    item, widened from 8 to 16 bytes per row. *)
Lemma width_change_rescales_rows_witness :
  data_sel (get_ok empty_app (resize_data 16 sample_s2)) = Some 1%N
  /\ data_sel sample_s2 = Some 2%N
  /\ data_width sample_s2 = 8%N.
Proof.
  assert (Hw : (16 <> data_width sample_s2)%N) by (vm_compute; discriminate).
  assert (Hr : resize_data 16 sample_s2
               = Ok (get_ok empty_app (resize_data 16 sample_s2)))
    by (vm_compute; reflexivity).
  destruct (proj1 width_change_rescales_rows _ _ _ Hw Hr) as (_ & _ & H).
  assert (Hd : data_sel sample_s2 = Some 2%N) by (vm_compute; reflexivity).
  destruct (H 2%N Hd) as [H1 _]. rewrite H1.
  split; [vm_compute; reflexivity|]. split; [exact Hd|vm_compute; reflexivity].
Defined.

(** C7 (counterexample).  With the padding item's remembered row at 2,
    switching from 1-byte to 2-byte grouping leaves the row at 2, not
    [2 * 1 / 2 = 1]. *)
Lemma grouping_change_keeps_rows :
  match run_step 0 true (EvKey (KChar "2") true) sample_s2 1 with
  | Ok (Continue s' _ _) =>
      data_grouping sample_s2 = Byte /\ data_grouping s' = Word
      /\ data_scroll_cache sample_s2 !! 1%N = Some 2%N
      /\ data_scroll_cache s' !! 1%N = Some 2%N
      /\ data_scroll_cache s' !! 1%N
         <> Some (2 * grouping_bytes Byte / grouping_bytes Word)%N
  | _ => False
  end.
Proof. vm_compute. repeat split. discriminate. Qed.

(** ** C9: wheel momentum *)

Lemma run_step_wheel (tbl : N) (r : bool) (e : Event) (s : App) (m : N)
    (st : Step) :
  is_wheel e = true -> run_step tbl r e s m = Ok st ->
  exists s', st = Continue s' (if r then N.min (m + 1) MAX_MOMENTUM else 1%N)
                           (Some (if r then m else 1%N)).
Proof.
  intros Hw H. destruct e as [k p|[] col row| |]; try discriminate Hw;
    unfold run_step in H; cbv beta iota zeta in H;
    (destruct (prev_row _ _) || destruct (next_row _ _)); cbn [bind] in H;
    try discriminate H; inversion H; subst; eexists; destruct r; reflexivity.
Qed.

Ltac step_resets H :=
  repeat match type of H with
  | bind ?x _ = _ => destruct x; cbn [bind] in H; [|discriminate H]
  | (if ?b then _ else _) = _ => destruct b
  | Ok Break = _ => discriminate H
  | Ok (Continue _ _ _) = Ok (Continue _ _ _) =>
      inversion H; subst; split; reflexivity
  end.

(** Any event other than a wheel event that does not end the loop leaves
    the momentum at 1. *)
Lemma run_step_non_wheel (tbl : N) (r : bool) (e : Event) (s : App) (m : N)
    (s' : App) (m' : N) (w : option N) :
  is_wheel e = false -> run_step tbl r e s m = Ok (Continue s' m' w) ->
  m' = 1%N /\ w = None.
Proof.
  intros Hw H. unfold run_step in H.
  destruct e as [k [|]|[] col row| |]; cbn in Hw; try discriminate Hw.
  - destruct k as [[[] [] [] [] [] [] [] []]| | | | | | | |];
      cbv beta iota zeta in H; step_resets H.
  - cbv beta iota zeta in H. step_resets H.
  - cbv beta iota zeta in H. step_resets H.
  - cbv beta iota zeta in H. step_resets H.
  - cbv beta iota zeta in H. step_resets H.
  - cbv beta iota zeta in H. step_resets H.
Qed.

Lemma run_loop_ready_wheels (draw : App -> result App) (tbl : N)
    (es : list Event) (s : App) (c : N) (s' : App) (m' : N) (ds : list N) :
  (c <= MAX_MOMENTUM)%N ->
  Forall (fun e => is_wheel e = true) es ->
  run_loop draw tbl (map (pair true) es) s c = Ok (s', m', ds) ->
  ds = map (fun k => N.min (c + N.of_nat k) MAX_MOMENTUM) (seq 0 (length es)).
Proof.
  revert s c s' m' ds.
  induction es as [|e es IH]; intros s c s' m' ds Hc Hw H; cbn in H.
  - inversion H; reflexivity.
  - inversion Hw as [|? ? He Hes]; subst.
    destruct (draw s) as [s1|]; cbn [bind] in H; [|discriminate H].
    destruct (run_step tbl true e s1 c) as [st|] eqn:Hst; cbn [bind] in H;
      [|discriminate H].
    destruct (run_step_wheel _ _ _ _ _ _ He Hst) as [s2 ->].
    destruct (run_loop draw tbl (map (pair true) es) s2
                (N.min (c + 1) MAX_MOMENTUM)) as [[[s3 m3] ds']|] eqn:Hr;
      cbn [bind] in H; [|discriminate H].
    inversion H; subst; clear H.
    assert (Hc' : (N.min (c + 1) MAX_MOMENTUM <= MAX_MOMENTUM)%N)
      by (unfold MAX_MOMENTUM; lia).
    rewrite (IH _ _ _ _ _ Hc' Hes Hr).
    cbn [length seq map]. f_equal.
    + unfold MAX_MOMENTUM in *. lia.
    + rewrite <- seq_shift, map_map. apply map_ext. intros k.
      unfold MAX_MOMENTUM. lia.
Qed.

(** C9 (amended).  The wheel delta is the [scroll_momentum] at the time
    of the event, reset to 1 first when the event did not arrive within
    the poll timeout; only a wheel event arriving within the timeout
    raises the momentum, by 1 up to 16.  So for a run of wheel events
    (first event with poll result [r1] and momentum [m] before it, the
    others each arriving within the timeout), the deltas are
    [momentum_deltas m r1 n]: the first is [m] ([1] after a gap), the
    following ones increase by 1 from [min (m+1) 16] (from 1 after a
    gap) and are capped at 16.  After a non-wheel event the momentum is
    1. *)
Theorem wheel_momentum_deltas :
  (forall (draw : App -> result App) (tbl : N) (r1 : bool) (e1 : Event)
          (es : list Event) (s : App) (m : N) (s' : App) (m' : N)
          (ds : list N),
     is_wheel e1 = true ->
     Forall (fun e => is_wheel e = true) es ->
     run_loop draw tbl ((r1, e1) :: map (pair true) es) s m = Ok (s', m', ds) ->
     ds = momentum_deltas m r1 (length es))
  /\ (forall (tbl : N) (r : bool) (e : Event) (s : App) (m : N) (s' : App)
             (m' : N) (w : option N),
        is_wheel e = false ->
        run_step tbl r e s m = Ok (Continue s' m' w) ->
        m' = 1%N /\ w = None).
Proof.
  split; [|exact run_step_non_wheel].
  intros draw tbl r1 e1 es s m s' m' ds Hw1 Hw H. cbn in H.
  destruct (draw s) as [s1|]; cbn [bind] in H; [|discriminate H].
  destruct (run_step tbl r1 e1 s1 m) as [st|] eqn:Hst; cbn [bind] in H;
    [|discriminate H].
  destruct (run_step_wheel _ _ _ _ _ _ Hw1 Hst) as [s2 ->].
  destruct (run_loop _ _ _ s2 _) as [[[s3 m3] ds']|] eqn:Hr;
    cbn [bind] in H; [|discriminate H].
  inversion H; subst; clear H. unfold momentum_deltas. f_equal.
  apply (run_loop_ready_wheels draw tbl es s2 _ s' m' ds'); [|exact Hw|exact Hr].
  unfold MAX_MOMENTUM. destruct r1; lia.
Qed.

(** Witness of C9: four wheel events over the item list of [blob_plain]
    in an 80x25 terminal. *)
Lemma wheel_momentum_deltas_witness :
  match run_loop (draw_state geometry_80x25) 0 wheel_run plain_app 1 with
  | Ok (_, _, ds) => ds = momentum_deltas 1 false 3 /\ ds = [1; 1; 2; 3]%N
  | Err _ => False
  end.
Proof.
  destruct (run_loop (draw_state geometry_80x25) 0 wheel_run plain_app 1)
    as [[[s' m'] ds]|] eqn:H.
  - split.
    + apply (proj1 wheel_momentum_deltas (draw_state geometry_80x25) 0%N false
               (EvMouse MScrollDown 10 5)
               [EvMouse MScrollDown 10 5; EvMouse MScrollDown 10 5;
                EvMouse MScrollDown 10 5] plain_app 1%N s' m' ds);
        [reflexivity | repeat constructor | exact H].
    + vm_compute in H. inversion H. reflexivity.
  - vm_compute in H. discriminate H.
Defined.

(** C9 (counterexample).  Three wheel events over the item list of
    [blob_plain] in an 80x25 terminal, the first after a gap and each of
    the others within the poll timeout of the previous one, are applied
    with deltas 1, 1, 2, not 1, 2, 3. *)
Lemma wheel_run_not_1_2_3 :
  match run_loop (draw_state geometry_80x25) 0 (firstn 3 wheel_run) plain_app 1 with
  | Ok (_, _, ds) => ds = [1; 1; 2]%N /\ ds <> [1; 2; 3]%N
  | Err _ => False
  end.
Proof. vm_compute. split; [reflexivity|discriminate]. Qed.

(* ================================================================== *)
(** * Further properties of the code *)

(** Discharges a decidable side condition on concrete data. *)
Ltac decide_concrete := apply (bool_decide_unpack _); vm_compute; reflexivity.

(** ** The container walk of [main]: header checks and record shape *)

Lemma parse_unfold_header (bytes : list Z) :
  (header_size <= length bytes)%nat ->
  parse bytes =
    (_ <- (if decide (take 4 bytes = APOB_SIG) then Ok tt
           else Err BadSignature) ;;
     _ <- (if decide (read_u32 bytes 4 = APOB_VERSION) then Ok tt
           else Err BadVersion) ;;
     hdata <- slice bytes 0 header_size ;;
     pdata <- slice bytes header_size (Z.to_nat (read_u32 bytes 12)) ;;
     rest <- entries_loop (S (length bytes)) bytes
                          (Z.to_nat (read_u32 bytes 12)) ;;
     Ok (header_of_bytes bytes,
         {| offset := 0; entry := Item_Header (header_of_bytes bytes);
            data := hdata |}
         :: {| offset := header_size; entry := Item_Padding; data := pdata |}
         :: rest)).
Proof.
  intros H. unfold parse, header_ref_from_prefix.
  replace (header_size <=? length bytes)%nat with true
    by (symmetry; apply Nat.leb_le; done).
  reflexivity.
Qed.

Lemma parse_short_header (bytes : list Z) :
  (length bytes < header_size)%nat -> parse bytes = Err HeaderPrefix.
Proof.
  intros H. unfold parse, header_ref_from_prefix.
  replace (header_size <=? length bytes)%nat with false
    by (symmetry; apply Nat.leb_gt; done).
  reflexivity.
Qed.

Lemma slice_bad_start (s : list Z) (a b : nat) :
  (b < a)%nat -> slice s a b = Err SliceOutOfRange.
Proof.
  intros H. unfold slice.
  replace ((a <=? b)%nat && (b <=? length s)%nat) with false; [done|].
  symmetry. apply andb_false_intro1, Nat.leb_gt. lia.
Qed.

(** X1.  [main] checks the file in this order: fewer than 16 bytes fail
    the header cast, a wrong signature fails the first assertion, and a
    version other than 0x18 the second. *)
Theorem parse_header_checks (bytes : list Z) :
  ((length bytes < header_size)%nat -> parse bytes = Err HeaderPrefix)
  /\ ((header_size <= length bytes)%nat -> take 4 bytes <> APOB_SIG ->
      parse bytes = Err BadSignature)
  /\ ((header_size <= length bytes)%nat -> take 4 bytes = APOB_SIG ->
      read_u32 bytes 4 <> APOB_VERSION -> parse bytes = Err BadVersion).
Proof.
  split; [|split].
  - apply parse_short_header.
  - intros Hl Hs. rewrite parse_unfold_header by done.
    destruct (decide _); [contradiction|reflexivity].
  - intros Hl Hs Hv. rewrite parse_unfold_header by done.
    destruct (decide (take 4 bytes = APOB_SIG)); [|contradiction].
    cbn [bind]. destruct (decide _); [contradiction|reflexivity].
Qed.

(** X2.  With a valid header, a header [offset] below 16 or past the end
    of the file fails the padding slice; an [offset] equal to the file
    length gives exactly the header and padding items, the padding being
    everything after the first 16 bytes. *)
Theorem parse_padding_bounds (bytes : list Z) :
  (header_size <= length bytes)%nat -> take 4 bytes = APOB_SIG ->
  read_u32 bytes 4 = APOB_VERSION ->
  (((Z.to_nat (read_u32 bytes 12) < header_size)%nat
    \/ (length bytes < Z.to_nat (read_u32 bytes 12))%nat) ->
   parse bytes = Err SliceOutOfRange)
  /\ (Z.to_nat (read_u32 bytes 12) = length bytes ->
      parse bytes =
        Ok (header_of_bytes bytes,
            [{| offset := 0; entry := Item_Header (header_of_bytes bytes);
                data := take header_size bytes |};
             {| offset := header_size; entry := Item_Padding;
                data := drop header_size bytes |}])).
Proof.
  intros Hl Hs Hv. rewrite parse_unfold_header by done.
  destruct (decide (take 4 bytes = APOB_SIG)); [|contradiction]. cbn [bind].
  destruct (decide (read_u32 bytes 4 = APOB_VERSION)); [|contradiction].
  cbn [bind].
  rewrite slice_in_range by (unfold header_size in *; lia). cbn [bind].
  split.
  - intros [Ho|Ho].
    + rewrite slice_bad_start by done. reflexivity.
    + rewrite slice_out_of_range by done. reflexivity.
  - intros Ho. rewrite Ho.
    rewrite slice_in_range by (unfold header_size in *; lia). cbn [bind].
    rewrite entries_loop_done by lia. cbn [bind].
    rewrite Nat.sub_0_r, drop_0.
    rewrite (take_ge (drop header_size bytes)) by (rewrite length_drop; lia).
    reflexivity.
Qed.

(** Every item of a successful walk is a record read in place. *)
Lemma entries_loop_records (fuel : nat) (bytes : list Z) (pos : nat)
    (recs : list Entry) :
  entries_loop fuel bytes pos = Ok recs -> Forall (record_at bytes) recs.
Proof.
  revert pos recs. induction fuel as [|fuel IH]; intros pos recs H;
    (destruct (decide (pos < length bytes)%nat) as [Hlt|Hge];
     [|rewrite entries_loop_done in H by lia; inversion H; constructor]).
  - cbn [entries_loop] in H. replace (pos <? length bytes)%nat with true in H
      by (symmetry; apply Nat.ltb_lt; done). discriminate.
  - apply entries_loop_step in H as (e & edata & rest & He & Hsz & -> & Hr & ->);
      [|done].
    constructor; [|exact (IH _ _ Hr)].
    pose proof (entry_ref_from_prefix_some _ _ _ He) as (Ha & _ & ->).
    exists (entry_of_bytes (drop pos bytes)). cbn [entry offset data].
    repeat split; try done; lia.
Qed.

Lemma parse_shape (bytes : list Z) (h : ApobHeader) (its : list Entry) :
  parse bytes = Ok (h, its) ->
  h = header_of_bytes bytes
  /\ (header_size <= Z.to_nat (hoffset h) <= length bytes)%nat
  /\ exists recs,
       its = {| offset := 0; entry := Item_Header h;
                data := take header_size bytes |}
             :: {| offset := header_size; entry := Item_Padding;
                   data := take (Z.to_nat (hoffset h) - header_size)
                                (drop header_size bytes) |}
             :: recs
       /\ Forall (record_at bytes) recs.
Proof.
  intros H. destruct (decide (header_size <= length bytes)%nat) as [Hl|Hl];
    [|rewrite parse_short_header in H by lia; discriminate].
  rewrite parse_unfold_header in H by done.
  destruct (decide (take 4 bytes = APOB_SIG)); cbn [bind] in H;
    [|discriminate].
  destruct (decide (read_u32 bytes 4 = APOB_VERSION)); cbn [bind] in H;
    [|discriminate].
  rewrite slice_in_range in H by (unfold header_size in *; lia).
  cbn [bind] in H.
  destruct (slice bytes header_size _) as [pdata|] eqn:Hp; cbn [bind] in H;
    [|discriminate].
  destruct (entries_loop _ _ _) as [rest|] eqn:Hr; cbn [bind] in H;
    [|discriminate].
  inversion H; subst h its; clear H.
  apply slice_ok in Hp as [Hb ->].
  split; [done|]. split; [cbn [hoffset header_of_bytes]; lia|].
  exists rest. split; [rewrite ?Nat.sub_0_r, ?drop_0; reflexivity|].
  exact (entries_loop_records _ _ _ _ Hr).
Qed.

(** X3.  A successful parse returns the header read from the first 16
    bytes, whose [offset] lies in [16, len]; the items are that header
    (with the first 16 bytes as data), the padding up to [offset], then
    records, each read in place at a 4-aligned offset with a size in
    [48, remaining] and the rest of its [size] bytes as payload. *)
Theorem parse_result_shape (bytes : list Z) (h : ApobHeader)
    (its : list Entry) :
  parse bytes = Ok (h, its) ->
  h = header_of_bytes bytes
  /\ (header_size <= Z.to_nat (hoffset h) <= length bytes)%nat
  /\ exists recs,
       its = {| offset := 0; entry := Item_Header h;
                data := take header_size bytes |}
             :: {| offset := header_size; entry := Item_Padding;
                   data := take (Z.to_nat (hoffset h) - header_size)
                                (drop header_size bytes) |}
             :: recs
       /\ Forall (record_at bytes) recs.
Proof. apply parse_shape. Qed.

(** The walk fails at the first record whose size is below 48. *)
Lemma entries_loop_short (bytes : list Z) (p q : nat) (e : ApobEntry) :
  reaches bytes p q ->
  (q < length bytes)%nat ->
  entry_ref_from_prefix bytes q = Some e ->
  (Z.to_nat (size e) < entry_header_size)%nat ->
  forall fuel, (length bytes - p < fuel)%nat ->
  entries_loop fuel bytes p = Err SliceOutOfRange.
Proof.
  intros Hr Hq He Hsz. induction Hr as [p|p q' e' Hp He' Hs _ IH];
    intros [|fuel] Hf; try lia.
  - rewrite entries_loop_unfold by done. rewrite He. cbn [bind unwrap].
    pose proof (entry_ref_from_prefix_some _ _ _ He) as (_ & Hl & _).
    rewrite slice_in_range
      by (rewrite length_drop; unfold entry_header_size in *; lia).
    cbn [bind]. rewrite slice_bad_start; [reflexivity|].
    rewrite length_take, length_drop. unfold entry_header_size in *. lia.
  - rewrite entries_loop_unfold by done. rewrite He'. cbn [bind unwrap].
    rewrite slice_in_range by (rewrite length_drop; lia).
    cbn [bind]. rewrite Nat.sub_0_r, drop_0.
    rewrite slice_in_range by (rewrite length_take, length_drop; lia).
    cbn [bind]. unfold entry_header_size in Hs.
    rewrite IH; [reflexivity|..]; try done; lia.
Qed.

(** X4.  A record whose size field is below 48 (0 included) aborts the
    parse at the payload slice [[48..]] of its [size] bytes: the walk
    never loops on a zero size. *)
Theorem parse_short_size_panics (bytes : list Z) (q : nat) (e : ApobEntry) :
  (header_size <= length bytes)%nat ->
  take 4 bytes = APOB_SIG -> read_u32 bytes 4 = APOB_VERSION ->
  (header_size <= Z.to_nat (read_u32 bytes 12) <= length bytes)%nat ->
  reaches bytes (Z.to_nat (read_u32 bytes 12)) q ->
  (q < length bytes)%nat ->
  entry_ref_from_prefix bytes q = Some e ->
  (Z.to_nat (size e) < entry_header_size)%nat ->
  parse bytes = Err SliceOutOfRange.
Proof.
  intros Hl Hs Hv Ho Hr Hq He Hsz. rewrite parse_unfold_header by done.
  destruct (decide (take 4 bytes = APOB_SIG)); [|contradiction]. cbn [bind].
  destruct (decide (read_u32 bytes 4 = APOB_VERSION)); [|contradiction].
  cbn [bind].
  rewrite slice_in_range by (unfold header_size in *; lia). cbn [bind].
  rewrite slice_in_range by lia. cbn [bind].
  erewrite entries_loop_short; [reflexivity|exact Hr|exact Hq|exact He
                               |exact Hsz|lia].
Qed.

Lemma parse_short_size_panics_witness :
  parse blob_zero_size = Err SliceOutOfRange.
Proof.
  apply (parse_short_size_panics blob_zero_size 16
           (entry_of_bytes (drop 16 blob_zero_size)));
    try (vm_compute; reflexivity); try (vm_compute; lia).
  apply reaches_here.
Defined.

Lemma parse_header_checks_witness :
  parse (take 10 blob_sample) = Err HeaderPrefix
  /\ parse (0 :: drop 1 blob_sample) = Err BadSignature
  /\ parse (take 4 blob_sample ++ le_encode 4 25 ++ drop 8 blob_sample)
     = Err BadVersion.
Proof.
  split; [|split].
  - apply (proj1 (parse_header_checks _)). decide_concrete.
  - apply (proj1 (proj2 (parse_header_checks _))); decide_concrete.
  - apply (proj2 (proj2 (parse_header_checks _))); decide_concrete.
Defined.

Lemma parse_padding_bounds_witness :
  parse (sample_header 8 ++ zeros 48) = Err SliceOutOfRange
  /\ parse (sample_header 64 ++ zeros 48)
     = Ok (header_of_bytes (sample_header 64 ++ zeros 48),
           [{| offset := 0;
               entry := Item_Header (header_of_bytes (sample_header 64 ++ zeros 48));
               data := take header_size (sample_header 64 ++ zeros 48) |};
            {| offset := header_size; entry := Item_Padding;
               data := drop header_size (sample_header 64 ++ zeros 48) |}]).
Proof.
  split.
  - apply (parse_padding_bounds _); decide_concrete.
  - apply (parse_padding_bounds _); decide_concrete.
Defined.

Lemma parse_result_shape_witness :
  parse blob_sample = Ok (parsed_header blob_sample, parsed_items blob_sample)
  /\ Forall (record_at blob_sample) (drop 2 (parsed_items blob_sample)).
Proof.
  assert (Hp : parse blob_sample
               = Ok (parsed_header blob_sample, parsed_items blob_sample))
    by (vm_compute; reflexivity).
  split; [exact Hp|].
  destruct (parse_result_shape _ _ _ Hp) as (_ & _ & recs & -> & Hr).
  exact Hr.
Defined.

(** ** The listing of [main] and the table of [App::render_table] *)

Lemma listing_groups (L : list Entry) :
  (forall it e, In it L -> entry it = Item_Entry e ->
                data_size e = Some (length (data it))) ->
  (snd (listing L) = true <->
     forall it e, In it L -> entry it = Item_Entry e -> group_of e <> None)
  /\ (table_rows L <> None <->
     forall it e, In it L -> entry it = Item_Entry e -> group_of e <> None)
  /\ (forall r, In r (fst (listing L)) ->
       exists it, In it L /\ offset it = lr_offset r
                  /\ length (data it) = lr_data_size r).
Proof.
  induction L as [|it L IH]; intros Hsz.
  - split; [|split].
    + split; [intros _ it e []|done].
    + split; [intros _ it e []|intros _; discriminate].
    + intros r [].
  - destruct IH as (IH1 & IH2 & IH3).
    { intros it' e Hin He. apply Hsz; [right|]; done. }
    assert (Hskip : (forall e, entry it <> Item_Entry e) ->
      ((forall x e, In x (it :: L) -> entry x = Item_Entry e ->
                    group_of e <> None) <->
       (forall x e, In x L -> entry x = Item_Entry e -> group_of e <> None))).
    { intros Hne. split; intros H x e Hin Hx.
      - apply (H x e); [right|]; done.
      - destruct Hin as [<-|Hin]; [exfalso; exact (Hne e Hx)|exact (H x e Hin Hx)]. }
    assert (Hrows : forall r, table_row it = Some r ->
              (table_rows (it :: L) <> None <-> table_rows L <> None)).
    { intros r Hr. cbn [table_rows]. rewrite Hr.
      destruct (table_rows L); cbn; [split; intros _; discriminate|reflexivity]. }
    assert (Hlater : forall r, In r (fst (listing L)) ->
              exists x, In x (it :: L) /\ offset x = lr_offset r
                        /\ length (data x) = lr_data_size r).
    { intros r Hr. destruct (IH3 r Hr) as (x & Hx & Ho & Hd).
      exists x; split; [right|]; done. }
    destruct (entry it) as [h| |e] eqn:Eit.
    + rewrite Hskip by (intros e; rewrite ?Eit; discriminate).
      rewrite (Hrows (TR_Header (offset it)))
        by (unfold table_row; rewrite Eit; reflexivity).
      cbn [listing]. rewrite Eit. split; [exact IH1|]. split; [exact IH2|].
      exact Hlater.
    + rewrite Hskip by (intros e; rewrite ?Eit; discriminate).
      rewrite (Hrows (TR_Padding (offset it) (length (data it))))
        by (unfold table_row; rewrite Eit; reflexivity).
      cbn [listing]. rewrite Eit. split; [exact IH1|]. split; [exact IH2|].
      exact Hlater.
    + assert (Hd : data_size e = Some (length (data it)))
        by (apply Hsz; [left|]; done).
      destruct (group_of e) as [g|] eqn:Eg.
      * assert (Hiff : forall P : Prop,
          (P <-> (forall x e', In x L -> entry x = Item_Entry e' ->
                               group_of e' <> None)) ->
          (P <-> forall x e', In x (it :: L) -> entry x = Item_Entry e' ->
                              group_of e' <> None)).
        { intros P HP. rewrite HP. split; intros H x e' Hin Hx.
          - destruct Hin as [<-|Hin]; [|exact (H x e' Hin Hx)].
            rewrite Eit in Hx. inversion Hx; subst e'. congruence.
          - apply (H x e'); [right|]; done. }
        split; [|split].
        -- apply Hiff. cbn [listing]. rewrite Eit, Eg, Hd.
           destruct (listing L) as [rows ok]. exact IH1.
        -- apply Hiff. erewrite Hrows; [exact IH2|].
           unfold table_row. rewrite Eit, Eg, Hd. reflexivity.
        -- cbn [listing]. rewrite Eit, Eg, Hd.
           destruct (listing L) as [rows ok] eqn:EL.
           intros r [<-|Hr]; [exists it; split; [left|]; done|].
           apply Hlater. exact Hr.
      * split; [|split].
        -- cbn [listing]. rewrite Eit, Eg. split; [discriminate|].
           intros H. exfalso. apply (H it e); [left|..]; done.
        -- cbn [table_rows]. unfold table_row at 1. rewrite Eit, Eg.
           split; [intros H; exfalso; apply H; reflexivity|].
           intros H. exfalso. apply (H it e); [left|..]; done.
        -- cbn [listing]. rewrite Eit, Eg. intros r [].
Qed.

(** X5.  On the items of a successful parse, the listing of [main] and
    the item table of the viewer both go through (no panic) exactly when
    every record's group value names a known group; every printed row
    shows the offset of an item and the length of its payload as the data
    size. *)
Theorem listing_requires_known_groups (bytes : list Z) (h : ApobHeader)
    (its : list Entry) :
  parse bytes = Ok (h, its) ->
  (snd (listing its) = true <->
     forall it e, In it its -> entry it = Item_Entry e -> group_of e <> None)
  /\ (table_rows its <> None <->
     forall it e, In it its -> entry it = Item_Entry e -> group_of e <> None)
  /\ (forall r, In r (fst (listing its)) ->
       exists it, In it its /\ offset it = lr_offset r
                  /\ length (data it) = lr_data_size r).
Proof.
  intros H. apply listing_groups.
  destruct (parse_shape _ _ _ H) as (_ & _ & recs & -> & Hrecs).
  intros it e [<-|[<-|Hin]] He; try discriminate He.
  rewrite List.Forall_forall in Hrecs.
  destruct (Hrecs it Hin) as (e' & He' & _ & _ & Hs & Hd).
  rewrite He in He'. inversion He'; subst e'.
  unfold data_size.
  replace (entry_header_size <=? _)%nat with true
    by (symmetry; apply Nat.leb_le; lia).
  rewrite Hd, length_take, length_drop. f_equal. lia.
Qed.

Lemma listing_requires_known_groups_witness :
  parse blob_unknown_group
    = Ok (parsed_header blob_unknown_group, parsed_items blob_unknown_group)
  /\ snd (listing (parsed_items blob_unknown_group)) = false
  /\ table_rows (parsed_items blob_unknown_group) = None.
Proof.
  assert (Hp : parse blob_unknown_group
     = Ok (parsed_header blob_unknown_group, parsed_items blob_unknown_group))
    by (vm_compute; reflexivity).
  destruct (listing_requires_known_groups _ _ _ Hp) as (H1 & H2 & _).
  assert (Hbad : ~ forall it e, In it (parsed_items blob_unknown_group) ->
                   entry it = Item_Entry e -> group_of e <> None).
  { intros H. apply (H (nth 2 (parsed_items blob_unknown_group)
                           {| offset := 0; entry := Item_Padding; data := [] |})
                       (entry_of_bytes (drop 16 blob_unknown_group)));
      vm_compute; [right; right; left; reflexivity|reflexivity|reflexivity]. }
  split; [exact Hp|]. split.
  - destruct (snd (listing _)) eqn:E; [|reflexivity].
    exfalso. apply Hbad, H1. reflexivity.
  - destruct (table_rows _) eqn:E; [|reflexivity].
    exfalso. apply Hbad, H2. discriminate.
Defined.

(** ** The specialized decoders on the memory images of their structs *)

Lemma le_decode_encode (n : nat) (v : Z) :
  0 <= v < 256 ^ Z.of_nat n -> le_decode (le_encode n v) = v.
Proof.
  revert v. induction n as [|n IH]; intros v Hv; cbn [le_encode le_decode].
  - cbn in Hv. lia.
  - rewrite IH.
    + pose proof (Z.div_mod v 256 ltac:(lia)). lia.
    + rewrite Nat2Z.inj_succ, Z.pow_succ_r in Hv by lia.
      split; [apply Z.div_pos; lia|]. apply Z.div_lt_upper_bound; lia.
Qed.

(** A field of [k] bytes read at offset [j] of a buffer that holds its
    encoding there. *)
Lemma le_field (X pre t : list Z) (k j : nat) (v : Z) :
  X = pre ++ le_encode k v ++ t -> length pre = j ->
  0 <= v < 256 ^ Z.of_nat k ->
  le_decode (take k (drop j X)) = v.
Proof.
  intros -> <- Hv. rewrite drop_app_length.
  rewrite take_app_length' by (rewrite le_encode_length; done).
  apply le_decode_encode, Hv.
Qed.

Lemma le_field0 (X t : list Z) (k : nat) (v : Z) :
  X = le_encode k v ++ t -> 0 <= v < 256 ^ Z.of_nat k ->
  le_decode (take k X) = v.
Proof.
  intros HX Hv. rewrite <- (drop_0 X).
  apply (le_field X [] t k 0 v); done.
Qed.

Lemma drop_blocks {A} (f : A -> list Z) (k : nat) (l : list A) (i : nat)
    (t : list Z) :
  (forall x, In x l -> length (f x) = k) -> (i <= length l)%nat ->
  drop (k * i) (concat (map f l) ++ t) = concat (map f (drop i l)) ++ t.
Proof.
  revert i. induction l as [|x l IH]; intros i Hl Hi.
  - cbn in Hi. replace i with 0%nat by lia. rewrite Nat.mul_0_r. reflexivity.
  - destruct i as [|i]; [rewrite Nat.mul_0_r; reflexivity|].
    cbn [map concat drop]. rewrite <- app_assoc.
    replace (k * S i)%nat with (length (f x) + k * i)%nat
      by (rewrite (Hl x) by (left; done); lia).
    rewrite <- drop_drop, drop_app_length.
    apply IH; [intros y Hy; apply Hl; right; done|cbn in Hi; lia].
Qed.

(** The [i]-th block of a concatenation of equal-sized blocks. *)
Lemma drop_block {A} (f : A -> list Z) (k : nat) (l : list A) (i : nat)
    (x : A) (t : list Z) :
  (forall y, In y l -> length (f y) = k) -> l !! i = Some x ->
  drop (k * i) (concat (map f l) ++ t)
  = f x ++ (concat (map f (drop (S i) l)) ++ t).
Proof.
  intros Hl Hx. rewrite drop_blocks; [|done|].
  - rewrite (drop_S _ _ _ Hx). cbn [map concat]. rewrite app_assoc. reflexivity.
  - apply lookup_lt_Some in Hx. lia.
Qed.

Lemma map_seq_take {A} (g : nat -> A) (l : list A) (n : nat) :
  (forall i x, l !! i = Some x -> g i = x) -> (n <= length l)%nat ->
  map g (seq 0 n) = take n l.
Proof.
  intros Hg. cut (forall j, (j + n <= length l)%nat ->
                   map g (seq j n) = take n (drop j l)).
  { intros H Hn. rewrite H by lia. rewrite drop_0. reflexivity. }
  induction n as [|n IH]; intros j Hj; [reflexivity|].
  destruct (lookup_lt_is_Some_2 l j) as [x Hx]; [lia|].
  cbn [seq map]. rewrite (drop_S _ _ _ Hx). cbn [take].
  rewrite (Hg _ _ Hx), IH by lia. reflexivity.
Qed.

Lemma pow_256_4 : 256 ^ Z.of_nat 4 = 2 ^ 32.
Proof. reflexivity. Qed.
Lemma pow_256_8 : 256 ^ Z.of_nat 8 = 2 ^ 64.
Proof. reflexivity. Qed.
Lemma pow_256_2 : 256 ^ Z.of_nat 2 = 2 ^ 16.
Proof. reflexivity. Qed.

Lemma event_at_bytes (bs r : list Z) (i : nat) (v : MilanApobEvent) :
  drop (4 + 16 * i) bs = event_bytes v ++ r -> event_in_range v ->
  event_at bs i = v.
Proof.
  intros H (H1 & H2 & H3 & H4). unfold event_at, read_u32. cbv zeta.
  rewrite <- !(drop_drop bs _ (4 + 16 * i)), H.
  destruct v as [c f d0 d1]. unfold event_bytes in *. cbn [class info data0 data1] in *.
  f_equal.
  - apply (le_field0 _ (le_encode 4 f ++ le_encode 4 d0 ++ le_encode 4 d1 ++ r));
      [rewrite <- !app_assoc; reflexivity|rewrite pow_256_4; done].
  - apply (le_field _ (le_encode 4 c) (le_encode 4 d0 ++ le_encode 4 d1 ++ r));
      [reflexivity|apply le_encode_length|rewrite pow_256_4; done].
  - apply (le_field _ (le_encode 4 c ++ le_encode 4 f) (le_encode 4 d1 ++ r));
      [rewrite <- !app_assoc; reflexivity
      |rewrite length_app, !le_encode_length; reflexivity
      |rewrite pow_256_4; done].
  - apply (le_field _ (le_encode 4 c ++ le_encode 4 f ++ le_encode 4 d0) r);
      [rewrite <- !app_assoc; reflexivity
      |rewrite !length_app, !le_encode_length; reflexivity
      |rewrite pow_256_4; done].
Qed.

Lemma length_blocks {A} (f : A -> list Z) (k : nat) (l : list A) :
  (forall x, In x l -> length (f x) = k) ->
  length (concat (map f l)) = (k * length l)%nat.
Proof.
  induction l as [|x l IH]; intros Hl; cbn [map concat length]; [lia|].
  rewrite length_app, (Hl x) by (left; done).
  rewrite IH by (intros y Hy; apply Hl; right; done). lia.
Qed.

Lemma event_bytes_length (v : MilanApobEvent) : length (event_bytes v) = 16%nat.
Proof. unfold event_bytes. rewrite !length_app, !le_encode_length. reflexivity. Qed.

Lemma hole_bytes_length (h : ApobSysMemMapHole) (pad : Z) :
  length (hole_bytes h pad) = 24%nat.
Proof. unfold hole_bytes. rewrite !length_app, !le_encode_length. reflexivity. Qed.

Lemma tfi_entry_bytes_length (x : PmuTfiEntry) :
  length (tfi_data x) = 4%nat -> length (tfi_entry_bytes x) = 24%nat.
Proof.
  intros H. unfold tfi_entry_bytes. rewrite !length_app, !le_encode_length.
  rewrite (length_blocks _ 4) by (intros; apply le_encode_length).
  rewrite H. reflexivity.
Qed.

Lemma hole_at_bytes (bs r : list Z) (i : nat) (h : ApobSysMemMapHole) :
  drop (16 + 24 * i) bs = hole_bytes h 0 ++ r -> hole_in_range h ->
  hole_at bs i = h.
Proof.
  intros H (H1 & H2 & H3). unfold hole_at, read_u32, read_u64. cbv zeta.
  rewrite <- !(drop_drop bs _ (16 + 24 * i)), H.
  destruct h as [b sz ty0]. unfold hole_bytes in *.
  cbn [hole_base hole_size hole_ty] in *. f_equal.
  - apply (le_field0 _ (le_encode 8 sz ++ le_encode 4 ty0 ++ le_encode 4 0 ++ r));
      [rewrite <- !app_assoc; reflexivity|rewrite pow_256_8; done].
  - apply (le_field _ (le_encode 8 b) (le_encode 4 ty0 ++ le_encode 4 0 ++ r));
      [rewrite <- !app_assoc; reflexivity|apply le_encode_length
      |rewrite pow_256_8; done].
  - apply (le_field _ (le_encode 8 b ++ le_encode 8 sz) (le_encode 4 0 ++ r));
      [rewrite <- !app_assoc; reflexivity
      |rewrite length_app, !le_encode_length; reflexivity
      |rewrite pow_256_4; done].
Qed.

Lemma tfi_entry_at_bytes (bs r : list Z) (i : nat) (x : PmuTfiEntry) :
  drop (4 + 24 * i) bs = tfi_entry_bytes x ++ r -> tfi_in_range x ->
  tfi_entry_at bs i = x.
Proof.
  intros H (H1 & H2 & H3 & H4). unfold tfi_entry_at. cbv zeta.
  assert (Hd : map (fun k => read_u32 bs (4 + 24 * i + 8 + 4 * k)) (seq 0 4)
               = tfi_data x).
  { rewrite (map_seq_take _ (tfi_data x)); [apply take_ge; lia| |lia].
    intros k y Hy. unfold read_u32.
    rewrite <- (drop_drop bs (4 * k) (4 + 24 * i + 8)).
    rewrite <- (drop_drop bs 8 (4 + 24 * i)), H.
    change (drop 8 (tfi_entry_bytes x ++ r))
      with (concat (map (le_encode 4) (tfi_data x)) ++ r).
    rewrite (drop_block _ 4 _ _ y) by (try intros; try apply le_encode_length; done).
    apply (le_field0 _ _ _ _ eq_refl). rewrite pow_256_4.
    rewrite Forall_lookup in H4. exact (H4 k y Hy). }
  rewrite Hd. unfold read_u32.
  rewrite <- !(drop_drop bs _ (4 + 24 * i)), H.
  destruct x as [b er ds]. unfold tfi_entry_bytes in *.
  cbn [bits error tfi_data] in *. f_equal.
  - apply (le_field0 _ (le_encode 4 er ++ concat (map (le_encode 4) ds) ++ r));
      [rewrite <- !app_assoc; reflexivity|rewrite pow_256_4; done].
  - apply (le_field _ (le_encode 4 b) (concat (map (le_encode 4) ds) ++ r));
      [rewrite <- !app_assoc; reflexivity|apply le_encode_length
      |rewrite pow_256_4; done].
Qed.

(** X6.  On the memory image of an event log followed by any bytes,
    [decode_item]'s event-log decoder returns the first [count] of the 64
    events, and panics at [log.events[..count]] when [count] exceeds 64. *)
Theorem event_log_round_trip (count pad : Z) (evs : list MilanApobEvent)
    (t : list Z) :
  0 <= count < 2 ^ 16 -> length evs = 64%nat -> Forall event_in_range evs ->
  decode_event_log (event_log_bytes count pad evs ++ t)
  = if (Z.to_nat count <=? 64)%nat then Ok (take (Z.to_nat count) evs)
    else Err SliceOutOfRange.
Proof.
  intros Hc Hl Hr. unfold decode_event_log.
  assert (Hb : forall x, In x evs -> length (event_bytes x) = 16%nat)
    by (intros; apply event_bytes_length).
  replace (event_log_size <=? length (event_log_bytes count pad evs ++ t))%nat
    with true.
  2:{ symmetry. apply Nat.leb_le. unfold event_log_bytes.
      rewrite !length_app, !le_encode_length, (length_blocks _ 16) by done.
      unfold event_log_size. lia. }
  replace (read_u16 (event_log_bytes count pad evs ++ t) 0) with count.
  2:{ symmetry. unfold read_u16. rewrite drop_0.
      apply (le_field0 _ (le_encode 2 pad ++ concat (map event_bytes evs) ++ t));
        [unfold event_log_bytes; rewrite <- !app_assoc; reflexivity
        |rewrite pow_256_2; done]. }
  destruct (Z.to_nat count <=? 64)%nat eqn:E; [|reflexivity].
  f_equal. apply Nat.leb_le in E. apply map_seq_take; [|lia].
  intros i x Hx.
  apply (event_at_bytes _ (concat (map event_bytes (drop (S i) evs)) ++ t)).
  - rewrite <- (drop_drop _ (16 * i) 4).
    change (drop 4 (event_log_bytes count pad evs ++ t))
      with (concat (map event_bytes evs) ++ t).
    apply drop_block; done.
  - rewrite Forall_lookup in Hr. exact (Hr i x Hx).
Qed.

(** X7.  On the memory image of a memory map with [hole_count] [n] and
    the holes [hs], the fabric decoder returns [high_phys] and the first
    [n] holes, and panics when [n] exceeds the holes present; any trailing
    part of a hole makes the hole-slice cast fail, whatever [n] is. *)
Theorem mem_map_round_trip (hp n : Z) (hs : list ApobSysMemMapHole) :
  0 <= hp < 2 ^ 64 -> 0 <= n < 2 ^ 32 -> Forall hole_in_range hs ->
  decode_sys_mem_map (mem_map_bytes hp n hs)
  = (if (Z.to_nat n <=? length hs)%nat then Ok (hp, take (Z.to_nat n) hs)
     else Err SliceOutOfRange)
  /\ forall t, (Nat.modulo (length t) 24 <> 0)%nat ->
     decode_sys_mem_map (mem_map_bytes hp n hs ++ t) = Err CastFailed.
Proof.
  intros Hh Hn Hr.
  assert (Hb : forall x, In x hs -> length (hole_bytes x 0) = 24%nat)
    by (intros; apply hole_bytes_length).
  assert (Hlen : length (mem_map_bytes hp n hs) = (16 + 24 * length hs)%nat).
  { unfold mem_map_bytes.
    rewrite !length_app, !le_encode_length, (length_blocks _ 24) by done.
    reflexivity. }
  split.
  - unfold decode_sys_mem_map. rewrite Hlen.
    replace (sys_mem_map_size <=? 16 + 24 * length hs)%nat with true
      by (symmetry; apply Nat.leb_le; unfold sys_mem_map_size; lia).
    unfold sys_mem_map_size, hole_size_bytes.
    replace (16 + 24 * length hs - 16)%nat with (length hs * 24)%nat by lia.
    rewrite Nat.Div0.mod_mul, Nat.div_mul by lia. cbn [Nat.eqb].
    replace (read_u32 (mem_map_bytes hp n hs) 8) with n.
    2:{ symmetry. apply (le_field _ (le_encode 8 hp)
                          (le_encode 4 0 ++ concat (map (fun h => hole_bytes h 0) hs)));
          [reflexivity|apply le_encode_length|rewrite pow_256_4; done]. }
    replace (read_u64 (mem_map_bytes hp n hs) 0) with hp.
    2:{ symmetry. unfold read_u64. rewrite drop_0.
        apply (le_field0 _ (le_encode 4 n ++ le_encode 4 0
                            ++ concat (map (fun h => hole_bytes h 0) hs)));
          [reflexivity|rewrite pow_256_8; done]. }
    destruct (Z.to_nat n <=? length hs)%nat eqn:E; [|reflexivity].
    f_equal. f_equal. apply Nat.leb_le in E. apply map_seq_take; [|lia].
    intros i x Hx.
    apply (hole_at_bytes _ (concat (map (fun h => hole_bytes h 0)
                                        (drop (S i) hs)) ++ [])).
    + rewrite <- (drop_drop _ (24 * i) 16).
      rewrite <- (app_nil_r (mem_map_bytes hp n hs)).
      change (drop 16 (mem_map_bytes hp n hs ++ []))
        with (concat (map (fun h => hole_bytes h 0) hs) ++ []).
      apply (drop_block (fun h => hole_bytes h 0)); done.
    + rewrite Forall_lookup in Hr. exact (Hr i x Hx).
  - intros t Ht. unfold decode_sys_mem_map.
    rewrite length_app, Hlen.
    replace (sys_mem_map_size <=? 16 + 24 * length hs + length t)%nat
      with true by (symmetry; apply Nat.leb_le; unfold sys_mem_map_size; lia).
    unfold sys_mem_map_size, hole_size_bytes.
    replace (16 + 24 * length hs + length t - 16)%nat
      with (length t + length hs * 24)%nat by lia.
    rewrite Nat.Div0.mod_add.
    destruct (Nat.modulo (length t) 24 =? 0)%nat eqn:E; [|reflexivity].
    apply Nat.eqb_eq in E. contradiction.
Qed.

(** X8.  On the memory image of a PMU training-failure table followed by
    any bytes, the decoder returns the first [nvalid] of the 40 entries,
    and panics at [p.entries[..nvalid]] when [nvalid] exceeds 40. *)
Theorem pmu_tfi_round_trip (nv : Z) (ts : list PmuTfiEntry) (t : list Z) :
  0 <= nv < 2 ^ 32 -> length ts = 40%nat -> Forall tfi_in_range ts ->
  decode_pmu_tfi (pmu_tfi_bytes nv ts ++ t)
  = if (Z.to_nat nv <=? 40)%nat then Ok (take (Z.to_nat nv) ts)
    else Err SliceOutOfRange.
Proof.
  intros Hn Hl Hr. unfold decode_pmu_tfi.
  assert (Hb : forall x, In x ts -> length (tfi_entry_bytes x) = 24%nat).
  { intros x Hx. apply tfi_entry_bytes_length.
    rewrite List.Forall_forall in Hr. apply Hr, Hx. }
  replace (pmu_tfi_size <=? length (pmu_tfi_bytes nv ts ++ t))%nat
    with true.
  2:{ symmetry. apply Nat.leb_le. unfold pmu_tfi_bytes.
      rewrite !length_app, !le_encode_length, (length_blocks _ 24) by done.
      unfold pmu_tfi_size. lia. }
  replace (read_u32 (pmu_tfi_bytes nv ts ++ t) 0) with nv.
  2:{ symmetry. unfold read_u32. rewrite drop_0.
      apply (le_field0 _ (concat (map tfi_entry_bytes ts) ++ t));
        [unfold pmu_tfi_bytes; rewrite <- !app_assoc; reflexivity
        |rewrite pow_256_4; done]. }
  destruct (Z.to_nat nv <=? 40)%nat eqn:E; [|reflexivity].
  f_equal. apply Nat.leb_le in E. apply map_seq_take; [|lia].
  intros i x Hx.
  apply (tfi_entry_at_bytes _ (concat (map tfi_entry_bytes (drop (S i) ts)) ++ t)).
  - rewrite <- (drop_drop _ (24 * i) 4).
    change (drop 4 (pmu_tfi_bytes nv ts ++ t))
      with (concat (map tfi_entry_bytes ts) ++ t).
    apply drop_block; done.
  - rewrite Forall_lookup in Hr. exact (Hr i x Hx).
Qed.

Lemma event_log_round_trip_witness :
  decode_event_log (event_log_bytes 3 0 sample_events ++ [7])
  = Ok (take 3 sample_events).
Proof.
  rewrite event_log_round_trip; [reflexivity|lia|reflexivity|decide_concrete].
Defined.

Lemma mem_map_round_trip_witness :
  decode_sys_mem_map (mem_map_bytes 65536 1 sample_holes)
  = Ok (65536, take 1 sample_holes)
  /\ decode_sys_mem_map (mem_map_bytes 65536 3 sample_holes) = Err SliceOutOfRange
  /\ decode_sys_mem_map (mem_map_bytes 65536 1 sample_holes ++ [0]) = Err CastFailed.
Proof.
  assert (Hr : Forall hole_in_range sample_holes) by decide_concrete.
  split; [|split].
  - rewrite (proj1 (mem_map_round_trip 65536 1 sample_holes ltac:(lia) ltac:(lia) Hr)).
    reflexivity.
  - rewrite (proj1 (mem_map_round_trip 65536 3 sample_holes ltac:(lia) ltac:(lia) Hr)).
    reflexivity.
  - apply (proj2 (mem_map_round_trip 65536 1 sample_holes ltac:(lia) ltac:(lia) Hr)).
    cbn. lia.
Defined.

Lemma pmu_tfi_round_trip_witness :
  decode_pmu_tfi (pmu_tfi_bytes 2 sample_tfis) = Ok (take 2 sample_tfis)
  /\ decode_pmu_tfi (pmu_tfi_bytes 41 sample_tfis) = Err SliceOutOfRange.
Proof.
  assert (Hr : Forall tfi_in_range sample_tfis) by decide_concrete.
  split.
  - rewrite <- (app_nil_r (pmu_tfi_bytes 2 sample_tfis)).
    rewrite pmu_tfi_round_trip; [reflexivity|lia|reflexivity|exact Hr].
  - rewrite <- (app_nil_r (pmu_tfi_bytes 41 sample_tfis)).
    rewrite pmu_tfi_round_trip; [reflexivity|lia|reflexivity|exact Hr].
Defined.

(** ** The event-log words and the byte-group colours *)

Lemma land_pow2 (w k : Z) :
  0 <= k -> Z.land w (2 ^ k) = if Z.testbit w k then 2 ^ k else 0.
Proof.
  intros Hk. apply Z.bits_inj'. intros n Hn. rewrite Z.land_spec.
  destruct (Z.eq_dec n k) as [->|Hne].
  - rewrite Z.pow2_bits_true by lia.
    destruct (Z.testbit w k); [rewrite Z.pow2_bits_true by lia|rewrite Z.bits_0];
      reflexivity.
  - rewrite Z.pow2_bits_false by lia. rewrite andb_false_r.
    destruct (Z.testbit w k); [rewrite Z.pow2_bits_false by lia|rewrite Z.bits_0];
      reflexivity.
Qed.

(** X9.  The training-error words of an event-log entry: [sock] is bits
    0..8 of [data0], [chan] bits 8..16, [dimm] bits 16..18 and [rank]
    bits 24..28; [pmu_load] and [pmu_train] of [data1] are its bits 0
    and 1. *)
Theorem train_error_fields (w : Z) :
  bit_field (train_sock w) w 0 8
  /\ bit_field (train_chan w) w 8 8
  /\ bit_field (train_dimm w) w 16 2
  /\ bit_field (train_rank w) w 24 4
  /\ pmu_load w = Z.testbit w 0
  /\ pmu_train w = Z.testbit w 1.
Proof.
  split; [|split; [|split; [|split; [|split]]]].
  - unfold train_sock. rewrite <- (Z.shiftr_0_r w) at 1.
    apply (extract_field w 0 8); lia.
  - apply (extract_field w 8 8); lia.
  - apply (extract_field w 16 2); lia.
  - apply (extract_field w 24 4); lia.
  - unfold pmu_load. change 1 with (2 ^ 0). rewrite land_pow2 by lia.
    destruct (Z.testbit w 0); reflexivity.
  - unfold pmu_train. change 2 with (2 ^ 1). rewrite land_pow2 by lia.
    destruct (Z.testbit w 1); reflexivity.
Qed.

Lemma forallb_eq_Forall (c : Z) (b : list Z) :
  forallb (fun x => Z.eqb x c) b = true <-> Forall (fun x => x = c) b.
Proof.
  rewrite forallb_forall, List.Forall_forall.
  split; intros H x Hx; [apply Z.eqb_eq|apply Z.eqb_eq]; auto.
Qed.

(** X10.  The colour of a byte group in the payload pane: dim exactly
    when all its bytes are 0 (the empty group included), yellow exactly
    when it is non-empty and all 0xFF.  Otherwise a 1-byte group is cyan
    when its low nibble is 0, blue when its high nibble is; a group of
    2, 4 or 8 bytes is cyan when its first half is zero, blue when its
    second half is, green else; any other length is unstyled. *)
Theorem data_style_cases (b : list Z) :
  (data_style b = St_Dim <-> Forall (fun x => x = 0) b)
  /\ (data_style b = St_Yellow <-> b <> [] /\ Forall (fun x => x = 255) b)
  /\ (~ Forall (fun x => x = 0) b -> ~ Forall (fun x => x = 255) b ->
      data_style b =
        match length b with
        | 1%nat => if Z.land (hd 0 b) 15 =? 0 then St_Cyan
                   else if Z.land (hd 0 b) 240 =? 0 then St_Blue else St_Green
        | 2%nat | 4%nat | 8%nat =>
            if forallb (fun x => Z.eqb x 0) (take (length b / 2) b) then St_Cyan
            else if forallb (fun x => Z.eqb x 0) (drop (length b / 2) b)
            then St_Blue else St_Green
        | _ => St_Plain
        end).
Proof.
  unfold data_style.
  destruct (forallb (fun x => Z.eqb x 0) b) eqn:E0;
    [apply forallb_eq_Forall in E0|];
  destruct (forallb (fun x => Z.eqb x 255) b) eqn:E1;
    try apply forallb_eq_Forall in E1.
  - destruct b as [|x b]; [|inversion E0; inversion E1; lia].
    split; [done|]. split; [split; [discriminate|intros [[] _]; done]|].
    intros H. exfalso. apply H. constructor.
  - split; [done|]. split; [split; [discriminate|]|].
    + intros [_ H]. apply forallb_eq_Forall in H. congruence.
    + intros H. exfalso. apply H, E0.
  - split; [split; [discriminate|intros H; apply forallb_eq_Forall in H; congruence]|].
    split; [split; [intros _|done]|].
    + split; [|exact E1]. intros ->. discriminate.
    + intros _ H. exfalso. apply H, E1.
  - split; [split; [|intros H; apply forallb_eq_Forall in H; congruence]|].
    { destruct b as [|x0 [|x1 [|x2 [|x3 [|x4 [|x5 [|x6 [|x7 [|x8 b]]]]]]]]];
        repeat (case_match; try discriminate); discriminate. }
    split; [split; [|intros [_ H]; apply forallb_eq_Forall in H; congruence]|].
    { destruct b as [|x0 [|x1 [|x2 [|x3 [|x4 [|x5 [|x6 [|x7 [|x8 b]]]]]]]]];
        repeat (case_match; try discriminate); discriminate. }
    intros _ _.
    destruct b as [|x0 [|x1 [|x2 [|x3 [|x4 [|x5 [|x6 [|x7 [|x8 b]]]]]]]]];
      simpl; rewrite ?andb_true_r, ?andb_assoc; reflexivity.
Qed.

Lemma data_style_cases_witness :
  data_style [1; 0; 0; 0] = St_Blue.
Proof.
  rewrite (proj2 (proj2 (data_style_cases [1; 0; 0; 0])));
    [reflexivity|decide_concrete|decide_concrete].
Defined.

(** ** The browser operations of [App] *)

Lemma div_ceil_spec (a b : N) :
  b <> 0%N ->
  exists q, div_ceil a b = Ok q
  /\ (a <= q * b < a + b)%N /\ (q = 0 <-> a = 0)%N.
Proof.
  intros Hb. unfold div_ceil.
  replace (b =? 0)%N with false by (symmetry; apply N.eqb_neq; done).
  eexists; split; [reflexivity|].
  pose proof (N.div_mod a b Hb) as Ha. pose proof (N.mod_lt a b Hb) as Hr.
  destruct (a mod b =? 0)%N eqn:E; cbv beta iota.
  - apply N.eqb_eq in E. rewrite E in Ha. split; [nia|].
    split; intros H; [rewrite N.add_0_r in H; rewrite Ha, H; lia|].
    subst a. rewrite N.Div0.div_0_l. lia.
  - apply N.eqb_neq in E. split.
    + clear -Ha Hr E. remember (a / b)%N as q. remember (a mod b)%N as r. nia.
    + split; intros H; [lia|]. subst a. rewrite N.Div0.mod_0_l in E. lia.
Qed.

Lemma set_item_scroll_keeps (i : N) (s s' : App) :
  set_item_scroll i s = Ok s' ->
  items s' = items s /\ data_width s' = data_width s
  /\ data_focus s' = data_focus s /\ data_grouping s' = data_grouping s
  /\ data_endian s' = data_endian s /\ data_colors s' = data_colors s.
Proof.
  unfold set_item_scroll, item_at.
  destruct (items _ !! _) as [it|]; cbn [bind unwrap]; [|discriminate].
  destruct (div_ceil _ _) as [mx|]; cbn [bind]; [|discriminate].
  intros H; inversion H; subst; cbn. repeat split.
Qed.

(** X11.  [set_item_scroll(i)] panics when [i] is not an item index;
    otherwise (for a non-zero row width) it selects item [i], restores
    the item's remembered data row (row 0 if none) and sets
    [data_scroll_max] to the number of rows the item's payload needs:
    the least [q] with [len <= q * width], 0 exactly for an empty
    payload. *)
Theorem set_item_scroll_cases (i : N) (s : App) :
  ((length (items s) <= N.to_nat i)%nat ->
   set_item_scroll i s = Err IndexOutOfBounds)
  /\ (forall it, items s !! N.to_nat i = Some it ->
      data_width s <> 0%N ->
      exists s', set_item_scroll i s = Ok s'
      /\ item_sel s' = Some i
      /\ data_sel s' = Some (default 0%N (data_scroll_cache s !! i))
      /\ data_scroll_cache s' = data_scroll_cache s
      /\ (payload_len it <= data_scroll_max s' * data_width s
          < payload_len it + data_width s)%N
      /\ (data_scroll_max s' = 0 <-> payload_len it = 0)%N).
Proof.
  split.
  - intros H. unfold set_item_scroll, item_at.
    cbn [items data_width data_scroll_cache set_data_sel set_item_sel].
    rewrite lookup_ge_None_2 by done. reflexivity.
  - intros it Hit Hw. unfold set_item_scroll, item_at.
    cbn [items data_width data_scroll_cache set_data_sel set_item_sel].
    rewrite Hit. cbn [bind unwrap].
    destruct (div_ceil_spec (payload_len it) (data_width s) Hw)
      as (q & -> & Hq1 & Hq2).
    cbn [bind]. eexists; split; [reflexivity|]. cbn. auto.
Qed.

(** X12.  [App::new] on an empty item list panics (at [items[0]]); on a
    non-empty one it selects the first item and its data row 0, with an
    empty row cache, 8-byte rows, and a scroll range that fits the first
    item's payload. *)
Theorem app_new_cases (its : list Entry) :
  app_new [] = Err IndexOutOfBounds
  /\ forall it, exists s,
       app_new (it :: its) = Ok s
       /\ items s = it :: its /\ item_sel s = Some 0%N /\ data_sel s = Some 0%N
       /\ data_scroll_cache s = ∅ /\ data_width s = 8%N
       /\ data_focus s = false /\ data_grouping s = Byte
       /\ data_endian s = Little
       /\ (payload_len it <= data_scroll_max s * 8 < payload_len it + 8)%N.
Proof.
  split; [reflexivity|]. intros it. unfold app_new.
  destruct (proj2 (set_item_scroll_cases 0
    {| items := it :: its; item_sel := Some 0%N; data_sel := Some 0%N;
       data_scroll_cache := ∅; data_scroll_max := 1; data_width := 8;
       data_endian := Little; data_focus := false; data_grouping := Byte;
       data_colors := false; specialized_state := None;
       window_height := 16 |}) it eq_refl ltac:(discriminate))
    as (s' & Hs & H1 & H2 & H3 & H4 & _).
  exists s'. split; [exact Hs|].
  destruct (set_item_scroll_keeps _ _ _ Hs) as (K1 & K2 & K3 & K4 & K5 & _).
  cbn in *. rewrite lookup_empty in H2. repeat split; try done; lia.
Qed.

(** X13.  Moving in the item list: with item [i] selected among [n > 0]
    items and no overflow of [i + d], [next_item_row(d)] selects item
    [min(i + d, n - 1)] and [prev_item_row(d)] item [i - d] (saturating
    at 0), each restoring that item's remembered data row.  With no items
    at all, [next_item_row] panics at [self.items.len() - 1]. *)
Theorem item_row_moves (d i : N) (s : App) :
  item_sel s = Some i ->
  ((items s = [] -> next_item_row d s = Err UsizeOverflow)
  /\ ((i < N.of_nat (length (items s)))%N -> data_width s <> 0%N ->
      (i + d <= USIZE_MAX)%N ->
      (exists s', next_item_row d s = Ok s'
         /\ item_sel s' = Some (N.min (i + d) (N.of_nat (length (items s)) - 1))
         /\ data_sel s' = Some (default 0%N (data_scroll_cache s
                              !! N.min (i + d) (N.of_nat (length (items s)) - 1))))
      /\ (exists s', prev_item_row d s = Ok s'
         /\ item_sel s' = Some (i - d)%N
         /\ data_sel s' = Some (default 0%N (data_scroll_cache s !! (i - d)%N))))).
Proof.
  intros Hi. split.
  - intros He. unfold next_item_row. rewrite Hi, He. cbn [length N.of_nat].
    unfold uadd. destruct (i + d <=? USIZE_MAX)%N; reflexivity.
  - intros Hn Hw Hd. split.
    + unfold next_item_row. rewrite Hi. unfold uadd, usub.
      replace (i + d <=? USIZE_MAX)%N with true
        by (symmetry; apply N.leb_le; done).
      replace (1 <=? N.of_nat (length (items s)))%N with true
        by (symmetry; apply N.leb_le; lia).
      cbn [bind].
      destruct (lookup_lt_is_Some_2 (items s)
                  (N.to_nat (N.min (i + d) (N.of_nat (length (items s)) - 1))))
        as [it Hit]; [lia|].
      destruct (proj2 (set_item_scroll_cases _ s) it Hit Hw)
        as (s' & Hs & H1 & H2 & _).
      exists s'. auto.
    + unfold prev_item_row. rewrite Hi.
      destruct (lookup_lt_is_Some_2 (items s) (N.to_nat (i - d))) as [it Hit];
        [lia|].
      destruct (proj2 (set_item_scroll_cases _ s) it Hit Hw)
        as (s' & Hs & H1 & H2 & _).
      exists s'. auto.
Qed.

(** X14.  Moving in the payload: with data row [i] selected, a positive
    [data_scroll_max] and no overflow of [i + d], [next_data_row(d)]
    moves to row [min(i + d, data_scroll_max - 1)] and [prev_data_row(d)]
    to [i - d] (saturating at 0); either remembers the new row for the
    selected item and changes nothing else that the browser keeps. *)
Theorem data_row_moves (d i : N) (s : App) :
  data_sel s = Some i -> (1 <= data_scroll_max s)%N ->
  (i + d <= USIZE_MAX)%N ->
  let moved_to (r : N) (s' : App) :=
       data_sel s' = Some r
       /\ data_scroll_cache s' = match item_sel s with
                                 | Some j => <[j := r]> (data_scroll_cache s)
                                 | None => data_scroll_cache s
                                 end
       /\ item_sel s' = item_sel s /\ items s' = items s
       /\ data_scroll_max s' = data_scroll_max s
       /\ data_width s' = data_width s in
  (exists s', next_data_row d s = Ok s'
              /\ moved_to (N.min (i + d) (data_scroll_max s - 1)) s')
  /\ (exists s', prev_data_row d s = Ok s' /\ moved_to (i - d)%N s').
Proof.
  intros Hi Hm Hd moved_to.
  assert (Hmv : forall r, moved_to r (set_data_scroll r s)).
  { intros r. unfold moved_to, set_data_scroll.
    destruct (item_sel s) eqn:Ej; cbn; repeat split; done. }
  split.
  - exists (set_data_scroll (N.min (i + d) (data_scroll_max s - 1)) s).
    split; [|apply Hmv].
    unfold next_data_row. rewrite Hi. unfold uadd, usub.
    replace (i + d <=? USIZE_MAX)%N with true
      by (symmetry; apply N.leb_le; done).
    replace (1 <=? data_scroll_max s)%N with true
      by (symmetry; apply N.leb_le; done).
    reflexivity.
  - exists (set_data_scroll (i - d) s). split; [|apply Hmv].
    unfold prev_data_row. rewrite Hi. reflexivity.
Qed.

Lemma set_item_scroll_cases_witness :
  set_item_scroll 5 sample_app = Err IndexOutOfBounds
  /\ exists s', set_item_scroll 2 sample_app = Ok s' /\ data_scroll_max s' = 1%N.
Proof.
  split.
  - apply (proj1 (set_item_scroll_cases 5 sample_app)). vm_compute. lia.
  - destruct (items sample_app !! N.to_nat 2) as [it|] eqn:Hit;
      [|vm_compute in Hit; discriminate].
    destruct (proj2 (set_item_scroll_cases 2 sample_app) it Hit
                ltac:(vm_compute; discriminate))
      as (s' & Hs & _ & _ & _ & Hb & _).
    exists s'. split; [exact Hs|].
    vm_compute in Hit. inversion Hit; subst it.
    assert (Hw : data_width sample_app = 8%N) by (vm_compute; reflexivity).
    rewrite Hw in Hb. unfold payload_len in Hb. cbn in Hb. lia.
Defined.

Lemma item_row_moves_witness :
  exists s', next_item_row 5 sample_app = Ok s' /\ item_sel s' = Some 2%N.
Proof.
  assert (Hsel : item_sel sample_app = Some 0%N) by (vm_compute; reflexivity).
  destruct (proj1 (proj2 (item_row_moves 5 0 sample_app Hsel)
                     ltac:(decide_concrete) ltac:(vm_compute; discriminate)
                     ltac:(decide_concrete)))
    as (s' & Hs & H1 & _).
  exists s'. split; [exact Hs|]. rewrite H1. vm_compute. reflexivity.
Defined.

Lemma data_row_moves_witness :
  exists s', next_data_row 10 sample_s1 = Ok s' /\ data_sel s' = Some 5%N.
Proof.
  assert (Hd : data_sel sample_s1 = Some 0%N) by (vm_compute; reflexivity).
  destruct (proj1 (data_row_moves 10 0 sample_s1 Hd ltac:(decide_concrete)
                     ltac:(decide_concrete)))
    as (s' & Hs & H1 & _).
  exists s'. split; [exact Hs|]. rewrite H1. vm_compute. reflexivity.
Defined.

(** ** Mouse clicks, quitting and the width round trip *)

(** X15.  A left click: in the item pane (column at most 45) on screen
    row [row] selects item [offset + row - 2] (the table's scroll offset,
    minus the border and header lines) when that is an item, restoring
    its data row, and otherwise only moves the focus to the item pane;
    in the payload pane (column above 45) it only moves the focus there.
    A click always resets the wheel momentum to 1. *)
Theorem left_click (tbl col row : N) (ready : bool) (s : App) (m : N) :
  let s0 := set_display s (data_endian s) false (data_grouping s) (data_colors s) in
  ((col <= 45)%N -> (tbl + row <= USIZE_MAX)%N -> (2 <= tbl + row)%N ->
   (tbl + row - 2 < N.of_nat (length (items s)))%N -> data_width s <> 0%N ->
   exists s', run_step tbl ready (EvMouse MDownLeft col row) s m
              = Ok (Continue s' 1%N None)
   /\ item_sel s' = Some (tbl + row - 2)%N
   /\ data_sel s' = Some (default 0%N (data_scroll_cache s !! (tbl + row - 2)%N))
   /\ data_focus s' = false)
  /\ ((col <= 45)%N -> (tbl + row <= USIZE_MAX)%N ->
      ((tbl + row < 2)%N \/ (N.of_nat (length (items s)) <= tbl + row - 2)%N) ->
      run_step tbl ready (EvMouse MDownLeft col row) s m
      = Ok (Continue s0 1%N None))
  /\ ((45 < col)%N ->
      run_step tbl ready (EvMouse MDownLeft col row) s m
      = Ok (Continue (set_display s (data_endian s) true (data_grouping s)
                                  (data_colors s)) 1%N None)).
Proof.
  intros s0. split; [|split].
  - intros Hc Ho H2 Hl Hw. unfold run_step.
    replace (45 <? col)%N with false by (symmetry; apply N.ltb_ge; done).
    fold s0. cbn [data_focus set_display negb]. unfold uadd.
    replace (tbl + row <=? USIZE_MAX)%N with true
      by (symmetry; apply N.leb_le; done).
    cbn [bind].
    replace (2 <=? tbl + row)%N with true by (symmetry; apply N.leb_le; done).
    replace (tbl + row - 2 <? N.of_nat (length (items s0)))%N with true
      by (symmetry; apply N.ltb_lt; done).
    destruct (lookup_lt_is_Some_2 (items s0) (N.to_nat (tbl + row - 2)))
      as [it Hit]; [cbn; lia|].
    destruct (proj2 (set_item_scroll_cases (tbl + row - 2) s0) it Hit Hw)
      as (s' & Hs & H1 & H2' & _).
    destruct (set_item_scroll_keeps _ _ _ Hs) as (_ & _ & Hf & _).
    rewrite Hs. cbn [bind]. exists s'. split; [reflexivity|]. auto.
  - intros Hc Ho Hout. unfold run_step.
    replace (45 <? col)%N with false by (symmetry; apply N.ltb_ge; done).
    fold s0. cbn [data_focus set_display negb]. unfold uadd.
    replace (tbl + row <=? USIZE_MAX)%N with true
      by (symmetry; apply N.leb_le; done).
    cbn [bind].
    destruct (2 <=? tbl + row)%N eqn:E2; [|reflexivity].
    apply N.leb_le in E2.
    replace (tbl + row - 2 <? N.of_nat (length (items s0)))%N with false
      by (symmetry; apply N.ltb_ge; cbn; lia).
    reflexivity.
  - intros Hc. unfold run_step.
    replace (45 <? col)%N with true by (symmetry; apply N.ltb_lt; done).
    reflexivity.
Qed.

Lemma left_click_witness :
  exists s', run_step 0 true (EvMouse MDownLeft 10 4) sample_app 7
             = Ok (Continue s' 1%N None)
  /\ item_sel s' = Some 2%N.
Proof.
  destruct (proj1 (left_click 0 10 4 true sample_app 7) ltac:(lia)
              ltac:(decide_concrete) ltac:(lia) ltac:(decide_concrete)
              ltac:(vm_compute; discriminate))
    as (s' & Hs & H1 & _).
  exists s'. split; [exact Hs|exact H1].
Defined.

(** X16.  Esc, [q] (pressed) and a failed event read end the loop: the
    events after them are never handled, so the outcome is the same as
    if the input stopped there. *)
Theorem quit_stops_loop (draw : App -> result App) (tbl : N)
    (evs : list (bool * Event)) (r : bool) (e : Event)
    (rest : list (bool * Event)) (s : App) (m : N) :
  In e [EvKey KEsc true; EvKey (KChar "q") true; EvError] ->
  run_loop draw tbl (evs ++ (r, e) :: rest) s m
  = run_loop draw tbl (evs ++ [(r, e)]) s m.
Proof.
  intros He. revert s m. induction evs as [|[r' e'] evs IH]; intros s m.
  - cbn [app run_loop]. destruct (draw s) as [s1|p]; cbn [bind]; [|reflexivity].
    assert (Hb : run_step tbl r e s1 m = Ok Break)
      by (destruct He as [<-|[<-|[<-|[]]]]; reflexivity).
    rewrite Hb. reflexivity.
  - cbn [app run_loop]. destruct (draw s) as [s1|p]; cbn [bind]; [|reflexivity].
    destruct (run_step tbl r' e' s1 m) as [[|s2 m2 w]|p]; cbn [bind];
      try reflexivity.
    rewrite IH. reflexivity.
Qed.

Lemma quit_stops_loop_witness :
  run_loop (draw_state geometry_80x25) 0
    ([] ++ (true, EvKey KEsc true) :: wheel_run) sample_app 1
  = run_loop (draw_state geometry_80x25) 0
      ([] ++ [(true, EvKey KEsc true)]) sample_app 1.
Proof. apply quit_stops_loop. cbn. auto. Defined.

Lemma resize_data_spec (w : N) (s s' : App) :
  w <> data_width s -> resize_data w s = Ok s' ->
  data_width s' = w /\ item_sel s' = item_sel s
  /\ (forall k, item_sel s <> Some k ->
        data_scroll_cache s' !! k
        = (fun r => r * data_width s / w)%N <$> data_scroll_cache s !! k)
  /\ data_sel s' = (fun r => r * data_width s / w)%N <$> data_sel s.
Proof.
  intros Hw H. unfold resize_data in H.
  destruct (decide (w = data_width s)) as [|_]; [contradiction|].
  destruct (rescale_rows _ _) as [rows|] eqn:Hr; cbn [bind] in H;
    [|discriminate].
  apply (rescale_rows_ok _ (fun r => r * data_width s / w)%N) in Hr;
    [|intros v r; apply rescale_ok].
  rewrite Hr, list_to_map_fmap, list_to_map_to_list in H.
  destruct (data_sel s) as [row|] eqn:Hd; cbn [data_sel set_cache] in H;
    rewrite ?Hd in H.
  - destruct (umul row _) as [idx|] eqn:Hm; cbn [bind] in H; [|discriminate].
    destruct (udiv idx w) as [r|] eqn:Hdv; cbn [bind] in H; [|discriminate].
    assert (Hrr : r = (row * data_width s / w)%N).
    { apply (rescale_ok (data_width s) w row r).
      cbn [data_width set_cache] in Hm. rewrite Hm. exact Hdv. }
    subst r. inversion H; subst s'; clear H.
    unfold set_data_scroll; cbn.
    split; [reflexivity|].
    destruct (item_sel s) as [j|] eqn:Hj; cbn; (split; [rewrite ?Hj; reflexivity|]);
      (split; [|reflexivity]); intros k Hk.
    + rewrite lookup_insert_ne by congruence. apply lookup_fmap.
    + apply lookup_fmap.
  - inversion H; subst s'; clear H. cbn.
    split; [reflexivity|]. split; [reflexivity|]. split; [|rewrite ?Hd; reflexivity].
    intros k _. apply lookup_fmap.
Qed.

Lemma fmap_option_compose (f g : N -> N) (o : option N) :
  f <$> (g <$> o) = (fun r => f (g r)) <$> o.
Proof. destruct o; reflexivity. Qed.

(** X17.  Narrowing the hex rows from 16 to 8 bytes and widening them
    back restores the active row and every other item's remembered row;
    widening from 8 to 16 and narrowing back rounds each of them down to
    an even row. *)
Theorem resize_round_trip (s s1 s2 : App) :
  (data_width s = 16%N -> resize_data 8 s = Ok s1 -> resize_data 16 s1 = Ok s2 ->
   data_width s2 = 16%N /\ data_sel s2 = data_sel s
   /\ forall k, item_sel s <> Some k ->
      data_scroll_cache s2 !! k = data_scroll_cache s !! k)
  /\ (data_width s = 8%N -> resize_data 16 s = Ok s1 -> resize_data 8 s1 = Ok s2 ->
      data_width s2 = 8%N
      /\ data_sel s2 = (fun r => 2 * (r / 2))%N <$> data_sel s
      /\ forall k, item_sel s <> Some k ->
         data_scroll_cache s2 !! k
         = (fun r => 2 * (r / 2))%N <$> data_scroll_cache s !! k).
Proof.
  assert (Hdown : forall r : N, (r * 16 / 8 * 8 / 16 = r)%N).
  { intros r. replace (r * 16)%N with (r * 2 * 8)%N by lia.
    rewrite N.div_mul by lia. replace (r * 2 * 8)%N with (r * 16)%N by lia.
    apply N.div_mul. lia. }
  assert (Hup : forall r : N, (r * 8 / 16 * 16 / 8 = 2 * (r / 2))%N).
  { intros r. replace 16%N with (8 * 2)%N at 1 by reflexivity.
    rewrite <- N.Div0.div_div, N.div_mul by lia.
    replace (r / 2 * 16)%N with (2 * (r / 2) * 8)%N by lia.
    apply N.div_mul. lia. }
  split.
  - intros Hw H1 H2.
    destruct (resize_data_spec 8 s s1 ltac:(rewrite Hw; discriminate) H1)
      as (W1 & S1 & C1 & D1).
    destruct (resize_data_spec 16 s1 s2 ltac:(rewrite W1; discriminate) H2)
      as (W2 & S2 & C2 & D2).
    rewrite W1, Hw in *.
    split; [done|]. split.
    + rewrite D2, D1, fmap_option_compose. destruct (data_sel s); cbn;
        [rewrite Hdown|]; reflexivity.
    + intros k Hk. rewrite C2 by congruence. rewrite C1 by done.
      rewrite fmap_option_compose. destruct (data_scroll_cache s !! k); cbn;
        [rewrite Hdown|]; reflexivity.
  - intros Hw H1 H2.
    destruct (resize_data_spec 16 s s1 ltac:(rewrite Hw; discriminate) H1)
      as (W1 & S1 & C1 & D1).
    destruct (resize_data_spec 8 s1 s2 ltac:(rewrite W1; discriminate) H2)
      as (W2 & S2 & C2 & D2).
    rewrite W1, Hw in *.
    split; [done|]. split.
    + rewrite D2, D1, fmap_option_compose. destruct (data_sel s); cbn;
        [rewrite Hup|]; reflexivity.
    + intros k Hk. rewrite C2 by congruence. rewrite C1 by done.
      rewrite fmap_option_compose. destruct (data_scroll_cache s !! k); cbn;
        [rewrite Hup|]; reflexivity.
Qed.

Lemma resize_round_trip_witness :
  let s := get_ok empty_app (run_data_ops [DNext 3] sample_s1) in
  let s1 := get_ok empty_app (resize_data 16 s) in
  let s2 := get_ok empty_app (resize_data 8 s1) in
  data_sel s = Some 3%N /\ data_sel s2 = Some 2%N.
Proof.
  intros s s1 s2.
  assert (Hs : data_sel s = Some 3%N) by (vm_compute; reflexivity).
  destruct (proj2 (resize_round_trip s s1 s2) ltac:(vm_compute; reflexivity)
              ltac:(vm_compute; reflexivity) ltac:(vm_compute; reflexivity))
    as (_ & Hd & _).
  split; [exact Hs|]. rewrite Hd, Hs. reflexivity.
Defined.

(** ** The specialized views *)

Lemma decode_event_log_err (bs : list Z) (p : Panic) :
  decode_event_log bs = Err p -> p = CastFailed \/ p = SliceOutOfRange.
Proof.
  unfold decode_event_log. intros Hr; repeat case_match; inversion Hr; auto.
Qed.

Lemma decode_sys_mem_map_err (bs : list Z) (p : Panic) :
  decode_sys_mem_map bs = Err p -> p = CastFailed \/ p = SliceOutOfRange.
Proof.
  unfold decode_sys_mem_map. intros Hr; repeat case_match; inversion Hr; auto.
Qed.

Lemma decode_pmu_tfi_err (bs : list Z) (p : Panic) :
  decode_pmu_tfi bs = Err p -> p = CastFailed \/ p = SliceOutOfRange.
Proof.
  unfold decode_pmu_tfi. intros Hr; repeat case_match; inversion Hr; auto.
Qed.

(** X18.  [render_specialized], called as [App::draw] calls it (with
    the tag of the selected item), panics only in a decoder's cast or
    slice, or, for the memory-map view, at the [u16] updates of its pane
    rectangle when the pane is under 3 rows high (or starts below row
    65532); the [panic!()] of the header view is unreachable, since only
    the header item gets the header tag. *)
Theorem render_specialized_panics (t : SpecializedTag) (y h : N) (s : App)
    (i : N) (it : Entry) (p : Panic) :
  item_sel s = Some i ->
  items s !! N.to_nat i = Some it ->
  specialized (entry it) = Some t ->
  render_specialized t y h s = Err p ->
  p = CastFailed \/ p = SliceOutOfRange
  \/ (p = UsizeOverflow /\ t = Tag_MemMap /\ (h < 3 \/ U16_MAX < y + 3)%N).
Proof.
  intros Hsel Hit Ht H. unfold render_specialized, item_at in H.
  cbn [item_sel items set_specialized] in H. rewrite Hsel in H.
  cbn [bind unwrap] in H. rewrite Hit in H. cbn [bind unwrap] in H.
  destruct (specialized_view it t) as [v|q] eqn:Hv; cbn [bind] in H.
  - destruct t; try discriminate H.
    unfold u16_add, usub in H.
    destruct (N.leb_spec (y + 3) U16_MAX); cbn [bind] in H;
      [destruct (N.leb_spec 3 h); cbn [bind] in H; [discriminate H|]|];
      inversion H; subst; right; right; repeat split; lia.
  - inversion H; subst q; clear H.
    destruct t; unfold specialized_view, result_map in Hv.
    + destruct (entry it) as [hd| |e] eqn:E; [discriminate|discriminate|].
      exfalso. cbn in Ht. repeat case_match; discriminate.
    + destruct (decode_event_log _) eqn:Hd; cbn [bind] in Hv; [discriminate|].
      inversion Hv; subst. destruct (decode_event_log_err _ _ Hd); auto.
    + destruct (decode_sys_mem_map _) eqn:Hd; cbn [bind] in Hv; [discriminate|].
      inversion Hv; subst. destruct (decode_sys_mem_map_err _ _ Hd); auto.
    + destruct (decode_pmu_tfi _) eqn:Hd; cbn [bind] in Hv; [discriminate|].
      inversion Hv; subst. destruct (decode_pmu_tfi_err _ _ Hd); auto.
Qed.

(** Witness of X18: the memory-map record of [blob_memmap], selected,
    in a 1-row specialized pane (an 80x3 terminal). *)
Lemma render_specialized_panics_witness :
  render_specialized Tag_MemMap 1 1 (get_ok empty_app (set_item_scroll 2 memmap_app))
  = Err UsizeOverflow
  /\ (UsizeOverflow = CastFailed \/ UsizeOverflow = SliceOutOfRange
      \/ (UsizeOverflow = UsizeOverflow /\ Tag_MemMap = Tag_MemMap
          /\ (1 < 3 \/ U16_MAX < 1 + 3)%N)).
Proof.
  assert (H : render_specialized Tag_MemMap 1 1
                (get_ok empty_app (set_item_scroll 2 memmap_app))
              = Err UsizeOverflow) by (vm_compute; reflexivity).
  split; [exact H|].
  exact (render_specialized_panics Tag_MemMap 1 1
           (get_ok empty_app (set_item_scroll 2 memmap_app)) 2 memmap_item
           UsizeOverflow
           ltac:(vm_compute; reflexivity) ltac:(vm_compute; reflexivity)
           ltac:(reflexivity) H).
Defined.

(** X19.  [decode_item] of the command-line tool decodes exactly the
    records the viewer gives a specialized view ([App::specialized]), and
    the same way: no output for the others, and for these the viewer's
    decoding result. *)
Theorem decode_item_matches_viewer (e : ApobEntry) (d : list Z) (off : nat) :
  (specialized (Item_Entry e) = None -> decode_item e d = Ok None)
  /\ (forall t, specialized (Item_Entry e) = Some t ->
      decode_item e d
      = result_map Some (specialized_view
                           {| offset := off; entry := Item_Entry e; data := d |} t)).
Proof.
  unfold specialized, decode_item.
  destruct (group_of e) as [g|]; [|split; [reflexivity|discriminate]].
  destruct g; try (split; [reflexivity|discriminate]);
    (destruct (ty e =? _); [|split; [reflexivity|discriminate]]);
    (split; [discriminate|]); intros t Ht; inversion Ht; subst t;
    cbn [specialized_view data]; unfold result_map.
  - destruct (decode_pmu_tfi d); reflexivity.
  - destruct (decode_event_log d); reflexivity.
  - destruct (decode_sys_mem_map d) as [[hp hs]|]; reflexivity.
Qed.

Lemma decode_item_matches_viewer_witness :
  decode_item (sample_entry 1) [1; 2; 3; 4] = Err CastFailed.
Proof.
  rewrite (proj2 (decode_item_matches_viewer (sample_entry 1) [1; 2; 3; 4] 64)
             Tag_PmuTrainingFailure ltac:(vm_compute; reflexivity)).
  vm_compute. reflexivity.
Defined.

(** ** Hex formatting *)

Lemma hex_pad_length (w : nat) (v : Z) : length (hex_pad w v) = w.
Proof.
  revert v. induction w as [|w IH]; intros v; [reflexivity|].
  cbn [hex_pad]. rewrite length_app, IH. cbn. lia.
Qed.

Lemma repeat_snoc {A} (x : A) (k : nat) : repeat x k ++ [x] = x :: repeat x k.
Proof. induction k as [|k IH]; [reflexivity|]. cbn. rewrite IH. reflexivity. Qed.

Lemma hex_pad_zero (k : nat) : hex_pad k 0 = repeat "0"%char k.
Proof.
  induction k as [|k IH]; [reflexivity|].
  cbn [hex_pad]. rewrite Zdiv_0_l, Zmod_0_l, IH. apply repeat_snoc.
Qed.

Lemma pow16_succ (n : nat) : 16 ^ Z.of_nat (S n) = 16 * 16 ^ Z.of_nat n.
Proof. rewrite Nat2Z.inj_succ, Z.pow_succ_r; lia. Qed.

Lemma pow16_pos (n : nat) : 0 < 16 ^ Z.of_nat n.
Proof. apply Z.pow_pos_nonneg; lia. Qed.

(** Leading zeros: the extra digits of a value below [16^n] are 0. *)
Lemma hex_pad_lead (n k : nat) (v : Z) :
  0 <= v < 16 ^ Z.of_nat n ->
  hex_pad (k + n) v = repeat "0"%char k ++ hex_pad n v.
Proof.
  revert v. induction n as [|n IH]; intros v Hv.
  - cbn in Hv. assert (v = 0) by lia. subst v.
    rewrite Nat.add_0_r, hex_pad_zero, app_nil_r. reflexivity.
  - rewrite Nat.add_succ_r. cbn [hex_pad].
    rewrite pow16_succ in Hv. pose proof (pow16_pos n).
    rewrite IH, app_assoc; [reflexivity|].
    split; [apply Z.div_pos; lia|]. apply Z.div_lt_upper_bound; lia.
Qed.

(** Only the last [n] digits of the value matter. *)
Lemma hex_pad_add_mult (n : nat) (v k : Z) :
  hex_pad n (v + 16 ^ Z.of_nat n * k) = hex_pad n v.
Proof.
  revert v k. induction n as [|n IH]; intros v k; [reflexivity|].
  cbn [hex_pad]. rewrite pow16_succ.
  replace (v + 16 * 16 ^ Z.of_nat n * k) with (v + (16 ^ Z.of_nat n * k) * 16)
    by ring.
  rewrite Z.div_add, Z.mod_add, IH by lia. reflexivity.
Qed.

Lemma hex_pad_split (m n : nat) (v : Z) :
  hex_pad (m + n) v = hex_pad m (v / 16 ^ Z.of_nat n) ++ hex_pad n v.
Proof.
  revert v. induction n as [|n IH]; intros v.
  - rewrite Nat.add_0_r. cbn. rewrite Z.div_1_r. symmetry. apply app_nil_r.
  - rewrite Nat.add_succ_r. cbn [hex_pad]. rewrite IH, <- app_assoc.
    rewrite Z.div_div, <- pow16_succ; [reflexivity|lia|apply pow16_pos].
Qed.

Lemma hex_ndigits_fuel_bounds (f : nat) (v : Z) :
  0 <= v < 16 ^ Z.of_nat (S f) ->
  (1 <= hex_ndigits_fuel f v)%nat
  /\ v < 16 ^ Z.of_nat (hex_ndigits_fuel f v)
  /\ (hex_ndigits_fuel f v = 1%nat
      \/ 16 ^ Z.of_nat (hex_ndigits_fuel f v - 1) <= v).
Proof.
  revert v. induction f as [|f IH]; intros v Hv.
  - cbn in Hv |- *. lia.
  - cbn [hex_ndigits_fuel]. destruct (Z.ltb_spec v 16) as [Hs|Hs].
    + cbn. lia.
    + rewrite pow16_succ in Hv. pose proof (pow16_pos (S f)).
      destruct (IH (v / 16)) as (H1 & H2 & H3).
      { split; [apply Z.div_pos; lia|]. apply Z.div_lt_upper_bound; lia. }
      pose proof (Z.div_mod v 16 ltac:(lia)).
      pose proof (Z.mod_pos_bound v 16 ltac:(lia)).
      set (n := hex_ndigits_fuel f (v / 16)) in *.
      split; [lia|]. split.
      * rewrite pow16_succ. lia.
      * right. replace (S n - 1)%nat with n by lia.
        destruct n as [|n]; [lia|]. rewrite pow16_succ.
        destruct H3 as [H3|H3].
        -- injection H3 as ->. cbn. lia.
        -- replace (S n - 1)%nat with n in H3 by lia. lia.
Qed.

Lemma hex_ndigits_le (w : nat) (v : Z) :
  0 <= v < 2 ^ 64 -> (1 <= w)%nat -> v < 16 ^ Z.of_nat w ->
  (hex_ndigits v <= w)%nat.
Proof.
  intros Hv Hw Hlt.
  destruct (hex_ndigits_fuel_bounds 64 v) as (_ & _ & [H3|H3]);
    [cbn in Hv |- *; lia| |].
  - unfold hex_ndigits. lia.
  - unfold hex_ndigits. destruct (Nat.le_gt_cases (hex_ndigits_fuel 64 v) w);
      [done|].
    assert (16 ^ Z.of_nat w <= 16 ^ Z.of_nat (hex_ndigits_fuel 64 v - 1)).
    { apply Z.pow_le_mono_r; lia. }
    lia.
Qed.

Lemma fmt_hex_max (w : nat) (v : Z) :
  0 <= v < 2 ^ 64 ->
  fmt_hex w v = hex_pad (Nat.max w (hex_ndigits v)) v.
Proof.
  intros Hv. unfold fmt_hex.
  destruct (hex_ndigits_fuel_bounds 64 v) as (_ & H2 & _); [cbn in Hv |- *; lia|].
  fold (hex_ndigits v) in H2.
  destruct (Nat.le_gt_cases (hex_ndigits v) w).
  - replace (Nat.max w (hex_ndigits v)) with ((w - hex_ndigits v) + hex_ndigits v)%nat
      by lia.
    rewrite hex_pad_lead; [reflexivity|lia].
  - replace (w - hex_ndigits v)%nat with 0%nat by lia.
    replace (Nat.max w (hex_ndigits v)) with (hex_ndigits v) by lia.
    reflexivity.
Qed.

Lemma fmt_hex_fits (w : nat) (v : Z) :
  0 <= v < 2 ^ 64 -> (1 <= w)%nat -> v < 16 ^ Z.of_nat w ->
  fmt_hex w v = hex_pad w v.
Proof.
  intros Hv Hw Hlt. rewrite fmt_hex_max by done.
  pose proof (hex_ndigits_le w v Hv Hw Hlt).
  replace (Nat.max w (hex_ndigits v)) with w by lia. reflexivity.
Qed.

(** X20.  [format!("{v:0w$x}")] (here for values of at most 64 bits)
    prints the last [max w d] hex digits of [v], where [d] is the number
    of significant digits of [v]: zero-padded to [w], never truncated.
    In particular a value below [16^w] takes exactly [w] characters. *)
Theorem fmt_hex_digits (w : nat) (v : Z) :
  0 <= v < 2 ^ 64 ->
  fmt_hex w v = hex_pad (Nat.max w (hex_ndigits v)) v
  /\ v < 16 ^ Z.of_nat (hex_ndigits v)
  /\ (hex_ndigits v = 1%nat \/ 16 ^ Z.of_nat (hex_ndigits v - 1) <= v)
  /\ ((1 <= w)%nat -> v < 16 ^ Z.of_nat w ->
      fmt_hex w v = hex_pad w v /\ length (fmt_hex w v) = w).
Proof.
  intros Hv.
  destruct (hex_ndigits_fuel_bounds 64 v) as (_ & H2 & H3); [cbn in Hv |- *; lia|].
  split; [apply fmt_hex_max; done|]. split; [exact H2|]. split; [exact H3|].
  intros Hw Hlt. rewrite fmt_hex_fits by done.
  split; [reflexivity|apply hex_pad_length].
Qed.

Lemma fmt_hex_digits_witness :
  fmt_hex 6 4660 = list_ascii_of_string "001234"
  /\ fmt_hex 2 4660 = list_ascii_of_string "1234".
Proof.
  destruct (fmt_hex_digits 6 4660 ltac:(lia)) as (H6 & _ & _ & _).
  destruct (fmt_hex_digits 2 4660 ltac:(lia)) as (H2 & _ & _ & _).
  rewrite H6, H2. split; vm_compute; reflexivity.
Defined.

Lemma fmt_hex_byte (b : Z) : is_byte b -> fmt_hex 2 b = hex_pad 2 b.
Proof. unfold is_byte. intros Hb. apply fmt_hex_fits; cbn; lia. Qed.

Lemma hex_pad_le_decode (c : list Z) :
  Forall is_byte c ->
  concat (map (hex_pad 2) (rev c)) = hex_pad (2 * length c) (le_decode c).
Proof.
  induction c as [|b c IH]; intros Hc; [reflexivity|].
  apply Forall_cons in Hc as [Hb Hc]. unfold is_byte in Hb.
  cbn [rev length le_decode]. rewrite map_app, concat_app, IH by done.
  cbn [map concat]. rewrite app_nil_r.
  replace (2 * S (length c))%nat with (2 * length c + 2)%nat by lia.
  rewrite hex_pad_split.
  change (16 ^ Z.of_nat 2) with 256.
  replace (b + 256 * le_decode c) with (b + le_decode c * 256) by ring.
  rewrite Z.div_add, Z.div_small, Z.add_0_l by lia.
  replace (b + le_decode c * 256) with (b + 16 ^ Z.of_nat 2 * le_decode c)
    by (change (16 ^ Z.of_nat 2) with 256; ring).
  rewrite hex_pad_add_mult. reflexivity.
Qed.

(** X21.  A payload group cell (of bytes) shows the group's value as a
    hex number with two digits per byte: in little-endian mode the value
    of the bytes read little endian, in big-endian mode read big endian. *)
Theorem group_text_value (c : list Z) :
  Forall is_byte c ->
  group_text Little c = hex_pad (2 * length c) (le_decode c)
  /\ group_text Big c = hex_pad (2 * length c) (le_decode (rev c)).
Proof.
  intros Hc. unfold group_text.
  assert (Hm : forall l, Forall is_byte l ->
                 map (fmt_hex 2) l = map (hex_pad 2) l).
  { intros l Hl. apply map_ext_in. intros x Hx.
    apply fmt_hex_byte. rewrite List.Forall_forall in Hl. auto. }
  split.
  - rewrite Hm by (apply Forall_rev; done). apply hex_pad_le_decode. done.
  - rewrite Hm by done. rewrite <- (rev_involutive c) at 1.
    rewrite hex_pad_le_decode by (apply Forall_rev; done).
    rewrite length_rev. reflexivity.
Qed.

Lemma group_text_value_witness :
  group_text Little [52; 18] = list_ascii_of_string "1234"
  /\ group_text Big [52; 18] = list_ascii_of_string "3412".
Proof.
  destruct (group_text_value [52; 18]
              ltac:(repeat constructor; unfold is_byte; lia)) as [HL HB].
  rewrite HL, HB. split; vm_compute; reflexivity.
Defined.

(** ** [print_hex] and the payload rows *)

Lemma chunks_fuel_lookup {A} (fuel n : nat) (l : list A) (k : nat) :
  (0 < n)%nat -> (length l <= fuel)%nat ->
  chunks_fuel fuel n l !! k
  = if (n * k <? length l)%nat then Some (take n (drop (n * k) l)) else None.
Proof.
  intros Hn. revert l k. induction fuel as [|f IH]; intros l k Hl.
  - destruct l; [|cbn in Hl; lia]. reflexivity.
  - destruct l as [|x l']; [reflexivity|].
    cbn [chunks_fuel]. set (l := x :: l') in *.
    destruct k as [|k].
    + rewrite Nat.mul_0_r, drop_0. cbn. reflexivity.
    + cbn [lookup list_lookup]. rewrite IH by (rewrite length_drop; cbn in Hl |- *; lia).
      rewrite length_drop, drop_drop.
      replace (n + n * k)%nat with (n * S k)%nat by lia.
      destruct (Nat.ltb_spec (n * k) (length l - n));
        destruct (Nat.ltb_spec (n * S k) (length l)); try reflexivity; lia.
Qed.

Lemma chunks_fuel_length {A} (fuel n : nat) (l : list A) :
  (0 < n)%nat -> (length l <= fuel)%nat ->
  length (chunks_fuel fuel n l) = ((length l + n - 1) / n)%nat.
Proof.
  intros Hn. revert l. induction fuel as [|f IH]; intros l Hl.
  - destruct l; [|cbn in Hl; lia]. cbn. rewrite Nat.div_small; lia.
  - destruct l as [|x l'].
    + cbn. rewrite Nat.div_small; lia.
    + cbn [chunks_fuel length]. set (l := x :: l') in *.
      rewrite IH by (rewrite length_drop; cbn in Hl |- *; lia).
      rewrite length_drop.
      assert (Hl1 : (1 <= length l)%nat) by (cbn; lia).
      change (S (length l')) with (length l).
      replace (length l + n - 1)%nat with ((length l - 1) + 1 * n)%nat by lia.
      rewrite Nat.div_add by lia.
      destruct (Nat.le_gt_cases n (length l)).
      * replace (length l - n + n - 1)%nat with (length l - 1)%nat by lia. lia.
      * replace (length l - n + n - 1)%nat with (n - 1)%nat by lia.
        rewrite !Nat.div_small by lia. reflexivity.
Qed.

Lemma hex_lines_chunks (fuel addr : nat) (l : list Z) (k : nat) :
  (length l <= fuel)%nat ->
  hex_lines addr (chunks_fuel fuel 16 l) !! k
  = if (16 * k <? length l)%nat
    then Some (hex_line (addr + 16 * k) (take 16 (drop (16 * k) l))) else None.
Proof.
  revert addr l k. induction fuel as [|f IH]; intros addr l k Hl.
  - destruct l; [|cbn in Hl; lia]. reflexivity.
  - destruct l as [|x l']; [reflexivity|].
    cbn [chunks_fuel hex_lines]. set (l := x :: l') in *.
    destruct k as [|k].
    + rewrite Nat.mul_0_r, Nat.add_0_r, drop_0. reflexivity.
    + cbn [lookup list_lookup]. rewrite IH by (rewrite length_drop; cbn in Hl |- *; lia).
      rewrite length_drop, drop_drop, length_take.
      destruct (Nat.ltb_spec (16 * k) (length l - 16));
        destruct (Nat.ltb_spec (16 * S k) (length l)); try reflexivity; try lia.
      replace (16 + 16 * k)%nat with (16 * S k)%nat by lia.
      replace (addr + Nat.min 16 (length l) + 16 * k)%nat
        with (addr + 16 * S k)%nat by lia.
      reflexivity.
Qed.

(** X22.  [print_hex] writes the column header, then one line per
    16 bytes of the data: line [k] (after the header) shows address
    [16 * k] and bytes [16 * k] to [16 * k + 15] (fewer on the last
    line), and there are no other lines. *)
Theorem print_hex_lines (bs : list Z) :
  print_hex bs !! 0%nat = Some hex_header
  /\ forall k, print_hex bs !! S k
     = if (16 * k <? length bs)%nat
       then Some (hex_line (16 * k) (take 16 (drop (16 * k) bs))) else None.
Proof.
  split; [reflexivity|]. intros k. unfold print_hex, chunks.
  cbn [lookup list_lookup]. apply hex_lines_chunks. lia.
Qed.

Lemma length_concat_map_const {A B} (f : A -> list B) (m : nat) (l : list A) :
  Forall (fun x => length (f x) = m) l ->
  length (concat (map f l)) = (m * length l)%nat.
Proof.
  induction 1 as [|x l Hx _ IH]; [cbn; lia|].
  cbn [map concat length]. rewrite length_app, Hx, IH. lia.
Qed.

Lemma length_concat_repeat {A} (s : list A) (k : nat) :
  length (concat (repeat s k)) = (length s * k)%nat.
Proof.
  induction k as [|k IH]; [cbn; lia|].
  cbn [repeat concat]. rewrite length_app, IH. lia.
Qed.

(** X23.  Every [print_hex] line of at most 16 bytes at an address
    below [0x10000] has its ASCII column at character 62: the address,
    the hex bytes and the blank filler always take 62 characters. *)
Theorem hex_line_columns (addr : nat) (d : list Z) :
  Forall is_byte d -> (length d <= 16)%nat -> Z.of_nat addr < 65536 ->
  length (hex_line addr d) = (62 + length d)%nat
  /\ drop 62 (hex_line addr d) = map shown_char d.
Proof.
  intros Hd Hlen Ha. unfold hex_line.
  assert (Hf4 : length (fmt_hex 4 (Z.of_nat addr)) = 4%nat).
  { rewrite fmt_hex_fits by (cbn; lia). apply hex_pad_length. }
  assert (Hbytes : length (concat (map (fun c => fmt_hex 2 c ++ [" "%char]) d))
                   = (3 * length d)%nat).
  { apply length_concat_map_const. eapply Forall_impl; [exact Hd|].
    intros c Hc. rewrite length_app, fmt_hex_byte, hex_pad_length by done.
    reflexivity. }
  assert (Hpad : length (concat (repeat (list_ascii_of_string "   ")
                                  (16 - length d)))
                 = (3 * (16 - length d))%nat).
  { rewrite length_concat_repeat. reflexivity. }
  rewrite !app_assoc. split.
  - rewrite !length_app, Hf4, Hbytes, Hpad, length_map. cbn. lia.
  - apply drop_app_length'.
    rewrite !length_app, Hf4, Hbytes, Hpad. cbn. lia.
Qed.

Lemma hex_line_columns_witness :
  drop 62 (hex_line 16 [65; 0; 66]) = list_ascii_of_string "A.B".
Proof.
  rewrite (proj2 (hex_line_columns 16 [65; 0; 66]
                    ltac:(repeat constructor; unfold is_byte; lia)
                    ltac:(cbn; lia) ltac:(lia))).
  vm_compute. reflexivity.
Defined.

(** X24.  [render_data] makes one row per [width] bytes of the payload:
    row [o] holds the offset [o * width], the groups of chunk [o], blank
    cells and the ASCII text.  A row has one cell more than the table's
    [data_columns] column constraints exactly when its chunk ends in a
    partial group (its length is not a multiple of the group size). *)
Theorem data_rows_shape (width bs : nat) (en : Endian) (colors : bool)
    (payload : list Z) (o : nat) :
  (0 < bs)%nat -> (0 < width)%nat ->
  data_rows width bs en colors payload !! o
  = (if (width * o <? length payload)%nat
     then Some (data_row width bs en colors o
                  (take width (drop (width * o) payload)))
     else None)
  /\ ((width * o < length payload)%nat ->
      length (data_row width bs en colors o
                (take width (drop (width * o) payload)))
      = (data_columns width bs
         + if (length (take width (drop (width * o) payload)) mod bs =? 0)%nat
           then 0 else 1)%nat).
Proof.
  intros Hbs Hw. split.
  - unfold data_rows, chunks. rewrite list_lookup_imap.
    rewrite chunks_fuel_lookup by lia.
    destruct (width * o <? length payload)%nat; reflexivity.
  - intros _. set (c := take width (drop (width * o) payload)).
    assert (Hc : (length c <= width)%nat)
      by (subst c; rewrite length_take; lia).
    unfold data_row, data_columns, chunks.
    cbn [length]. rewrite !length_app, repeat_length, length_map.
    cbn [length]. rewrite chunks_fuel_length by lia.
    assert (Hdiv : (length c / bs <= width / bs)%nat)
      by (apply Nat.Div0.div_le_mono; lia).
    pose proof (Nat.div_mod_eq (length c) bs) as Hdm.
    pose proof (Nat.mod_upper_bound (length c) bs ltac:(lia)) as Hmb.
    set (q := (length c / bs)%nat) in *. set (r := (length c mod bs)%nat) in *.
    replace (length c + bs - 1)%nat with ((r + bs - 1) + q * bs)%nat by lia.
    rewrite Nat.div_add by lia.
    destruct (Nat.eqb_spec r 0) as [Hr|Hr].
    + rewrite Hr. rewrite (Nat.div_small (0 + bs - 1)) by lia. lia.
    + replace (r + bs - 1)%nat with ((r - 1) + 1 * bs)%nat by lia.
      rewrite Nat.div_add, (Nat.div_small (r - 1)) by lia. lia.
Qed.

Lemma data_rows_shape_witness :
  length (data_row 8 4 Little false 0 (take 8 (drop (8 * 0) [1; 2; 3; 4; 5])))
  = (data_columns 8 4 + 1)%nat.
Proof.
  rewrite (proj2 (data_rows_shape 8 4 Little false [1; 2; 3; 4; 5] 0
                    ltac:(lia) ltac:(lia)) ltac:(cbn; lia)).
  reflexivity.
Defined.
